(** * tollc: a low-latency capture context for Jetson CSI cameras

    A Rocq model of [src/tollc/__init__.py]: the pipeline description built
    by [create_cap], the drain loop [clear_buffer], and the generator based
    context manager [cap_context] with its [try]/[finally] teardown.

    The two threads of the program (the caller's thread, which also runs
    the body of [cap_context], and the thread started on [clear_buffer])
    are interleaved by an explicit schedule.  Every call on the capture
    handle is one atomic step and leaves one event in a chronological
    trace.

    What is taken from the libraries rather than from the module: the
    constructor of [cv2.VideoCapture] returns a handle whose status tells
    whether the pipeline opened, [release] closes the handle, no operation
    of the block opens it again, [grab] and [read] fail on a closed
    handle, and starting a thread succeeds.

    [create_cap] is modelled twice.  The first model takes [width] and
    [height] as integers whose text [str] gives; it is the one the context
    manager runs.  [CPython.create_cap] adds what the interpreter does at
    the edge of the argument type: the conversion of an integer to text
    raises [ValueError] above [sys.int_max_str_digits] digits, and a [bool],
    which passes for an [int], is written [True] or [False].  Within the
    limit the two models agree. *)

From Stdlib Require Import String Ascii List ZArith Bool Arith Lia.
From Stdlib Require Import DecimalString DecimalZ DecimalPos.
Import ListNotations.
Local Open Scope string_scope.

(** ** Python values used by the module *)

Module Py.

(** [str(n)] for a Python [int]. *)
Definition str_int (n : Z) : string :=
  NilZero.string_of_int (Z.to_int n).

(** [str(os.cpu_count())]: the call returns an [int] or [None]. *)
Definition str_cpu_count (n : option Z) : string :=
  match n with
  | Some k => str_int k
  | None => "None"
  end.

(** [int(s)] restricted to plain decimal literals. *)
Definition int_of_str (s : string) : option Z :=
  option_map Z.of_int (NilZero.int_of_string s).

(** The result of running a Python call: a value or a raised exception. *)
Inductive result (A : Type) : Type :=
| Ok (a : A)
| Raise (exn : string).
Arguments Ok {A} a.
Arguments Raise {A} exn.

(** How a [with] block ends. *)
Inductive outcome : Type :=
| Returns
| Raises (exn : string).

End Py.

(** ** The capture library, as far as the module uses it *)

Module Cv2.

(** A [cv2.VideoCapture] object: the description it was built from and
    its open status.  The frame queue is owned by the library and is
    represented only by the answers of [grab] and [read]. *)
Record VideoCapture : Type := mkCapture
  { description : string;
    opened : bool }.

Definition isOpened (cap : VideoCapture) : bool := opened cap.

Definition release (cap : VideoCapture) : VideoCapture :=
  {| description := description cap; opened := false |}.

(** [grab] and [read] fail on a closed handle; on an open one the
    answer is the backend's ([ready]). *)
Definition grab (cap : VideoCapture) (ready : bool) : bool :=
  opened cap && ready.

Definition read (cap : VideoCapture) (ready : bool) : bool :=
  opened cap && ready.

End Cv2.

Import Cv2.

(** ** Events *)

Inductive Actor : Type :=
| Caller        (* the body of the [with] block *)
| Coordinator   (* the code of [cap_context] *)
| Drainer.      (* the thread running [clear_buffer] *)

Inductive Call : Type :=
| Construct (descr : string) (is_open : bool)
| IsOpened (answer : bool)
| Grab (answer : bool)
| Read (answer : bool)
| Release
| Sleep0
| ThreadStart
| ThreadJoin.

Definition Event : Type := (Actor * Call)%type.

(** ** The world outside the module

    [cpu_count] is what [os.cpu_count()] returns, [pipeline_opens] tells
    whether the backend manages to open a description, and [frame_ready]
    is the backend's answer to a grab or read issued after a given
    history. *)
Record World : Type := mkWorld
  { cpu_count : option Z;
    pipeline_opens : string -> bool;
    frame_ready : list Event -> bool }.

(** The constructor [cv2.VideoCapture(description)]: it reports a failure
    to open through the status of the handle it returns. *)
Definition VideoCapture_new (w : World) (descr : string)
  : Py.result VideoCapture :=
  Py.Ok {| description := descr; opened := pipeline_opens w descr |}.

(** ** [create_cap] (lines 10-40) *)

(** The f-string passed to the constructor. *)
Definition pipeline (w : World) (width height : Z) (low_latency : bool)
  : string :=
  "nvarguscamerasrc sensor-mode=0 tnr-mode="
    ++ (if low_latency then "0" else "2") ++ " "
  ++ "! nvvidconv interpolation-method="
    ++ (if low_latency then "Nearest" else "Nicest") ++ " output-buffers=1 "
  ++ "! video/x-raw, width=" ++ Py.str_int width
    ++ ", height=" ++ Py.str_int height ++ ", format=BGRx "
  ++ "! videoconvert n-threads=" ++ Py.str_cpu_count (cpu_count w) ++ " "
  ++ "! video/x-raw, format=(string)BGR "
  ++ "! appsink".

Arguments pipeline : simpl never.

Definition create_cap (w : World) (width height : Z) (low_latency : bool)
  : Py.result VideoCapture :=
  VideoCapture_new w (pipeline w width height low_latency).

(** The same f-string over the texts of its three formatted values. *)
Definition pipeline_text (width_text height_text cpu_text : string)
  (low_latency : bool) : string :=
  "nvarguscamerasrc sensor-mode=0 tnr-mode="
    ++ (if low_latency then "0" else "2") ++ " "
  ++ "! nvvidconv interpolation-method="
    ++ (if low_latency then "Nearest" else "Nicest") ++ " output-buffers=1 "
  ++ "! video/x-raw, width=" ++ width_text
    ++ ", height=" ++ height_text ++ ", format=BGRx "
  ++ "! videoconvert n-threads=" ++ cpu_text ++ " "
  ++ "! video/x-raw, format=(string)BGR "
  ++ "! appsink".

Arguments pipeline_text : simpl never.

(** ** [create_cap] with the interpreter's formatting (lines 10-40) *)

Module CPython.

(** What a caller can pass for a parameter annotated [int]: an [int], or
    a [bool], which is a subclass of [int]. *)
Inductive int_arg : Type :=
| Int (n : Z)
| Bool (b : bool).

(** The default of [sys.int_max_str_digits] (CPython 3.11 and later). *)
Definition int_max_str_digits : nat := 4300.

(** Whether the digits of [n], its sign left out, are within the limit. *)
Definition fits (n : Z) : bool :=
  Nat.leb (String.length (Py.str_int (Z.abs n))) int_max_str_digits.

(** [str(n)], as the f-string calls it on an [int]. *)
Definition str_int (n : Z) : Py.result string :=
  if fits n then Py.Ok (Py.str_int n) else Py.Raise "ValueError".

(** The text of an argument when it can be formatted. *)
Definition arg_text (a : int_arg) : string :=
  match a with
  | Int n => Py.str_int n
  | Bool true => "True"
  | Bool false => "False"
  end.

Definition fits_arg (a : int_arg) : bool :=
  match a with
  | Int n => fits n
  | Bool _ => true
  end.

(** [f"{a}"] for an argument. *)
Definition format_arg (a : int_arg) : Py.result string :=
  match a with
  | Int n => str_int n
  | Bool b => Py.Ok (arg_text (Bool b))
  end.

Definition fits_cpu_count (n : option Z) : bool :=
  match n with
  | Some k => fits k
  | None => true
  end.

(** [f"{os.cpu_count()}"]. *)
Definition format_cpu_count (n : option Z) : Py.result string :=
  match n with
  | Some k => str_int k
  | None => Py.Ok "None"
  end.

(** The f-string is evaluated from left to right; the first value that
    cannot be formatted raises, and the constructor is not reached. *)
Definition create_cap (w : World) (width height : int_arg)
  (low_latency : bool) : Py.result VideoCapture :=
  match format_arg width with
  | Py.Raise exn => Py.Raise exn
  | Py.Ok width_text =>
      match format_arg height with
      | Py.Raise exn => Py.Raise exn
      | Py.Ok height_text =>
          match format_cpu_count (cpu_count w) with
          | Py.Raise exn => Py.Raise exn
          | Py.Ok cpu_text =>
              VideoCapture_new w
                (pipeline_text width_text height_text cpu_text low_latency)
          end
      end
  end.

End CPython.

(** ** [clear_buffer] (lines 43-52) *)

(** Where the drain thread is. *)
Inductive DrainerPc : Type :=
| NotStarted   (* no thread has been started *)
| AtWhile      (* line 45: about to evaluate [cap.isOpened()] *)
| AtGrab       (* line 48: about to call [cap.grab()] *)
| AtSleep      (* line 52: about to call [time.sleep(0)] *)
| Finished.    (* the loop was left and the thread ended *)

(** One step of the loop on the shared handle [cap], after the history
    [hist].  The answer of [grab] is put in the event and nowhere else. *)
Definition clear_buffer (w : World) (pc : DrainerPc) (cap : VideoCapture)
  (hist : list Event) : option (DrainerPc * Event) :=
  match pc with
  | NotStarted => None
  | AtWhile =>
      if isOpened cap
      then Some (AtGrab, (Drainer, IsOpened true))
      else Some (Finished, (Drainer, IsOpened false))
  | AtGrab =>
      let _ignored := grab cap (frame_ready w hist) in
      Some (AtSleep, (Drainer, Grab _ignored))
  | AtSleep => Some (AtWhile, (Drainer, Sleep0))
  | Finished => None
  end.

(** ** [cap_context] (lines 55-120) *)

(** What the body of the [with] block does with the handle. *)
Inductive CallerOp : Type :=
| DoRead
| DoGrab
| DoIsOpened
| DoRelease.

(** One use of [with cap_context(width, height, low_latency) as cap:],
    with the operations of the block and the way the block ends. *)
Record Invocation : Type := mkInvocation
  { width : Z;
    height : Z;
    low_latency : bool;
    body : list CallerOp;
    ending : Py.outcome }.

(** Where the thread that entered [cap_context] is. *)
Inductive MainPc : Type :=
| AtCreate                       (* line 108 *)
| AtSpawn                        (* lines 110-112, [low_latency] holds *)
| InBlock (rest : list CallerOp) (* line 114: suspended at [yield] *)
| AtRelease                      (* line 117, in [finally] *)
| AtJoin                         (* lines 118-120, [low_latency] holds *)
| Exited (how : Py.outcome).     (* control is back in the caller *)

Record State : Type := mkState
  { cap : option VideoCapture;   (* the one handle both threads refer to *)
    main : MainPc;
    drainer : DrainerPc;
    trace : list Event }.

Definition initial : State :=
  {| cap := None; main := AtCreate; drainer := NotStarted; trace := [] |}.

(** One operation of the block on the handle. *)
Definition caller_op (w : World) (op : CallerOp) (c : VideoCapture)
  (hist : list Event) : VideoCapture * Event :=
  match op with
  | DoRead => (c, (Caller, Read (read c (frame_ready w hist))))
  | DoGrab => (c, (Caller, Grab (grab c (frame_ready w hist))))
  | DoIsOpened => (c, (Caller, IsOpened (isOpened c)))
  | DoRelease => (release c, (Caller, Release))
  end.

(** One step of the thread running [cap_context]; [None] when the thread
    is blocked (in [join]) or has left the scope. *)
Definition cap_context (w : World) (inv : Invocation) (st : State)
  : option State :=
  match main st with
  | AtCreate =>
      match create_cap w (width inv) (height inv) (low_latency inv) with
      | Py.Ok c =>
          Some {| cap := Some c;
                  main := if low_latency inv then AtSpawn
                          else InBlock (body inv);
                  drainer := drainer st;
                  trace := trace st
                    ++ [(Coordinator, Construct (description c) (opened c))] |}
      | Py.Raise exn =>
          Some {| cap := None; main := Exited (Py.Raises exn);
                  drainer := drainer st; trace := trace st |}
      end
  | AtSpawn =>
      Some {| cap := cap st; main := InBlock (body inv);
              drainer := AtWhile;
              trace := trace st ++ [(Coordinator, ThreadStart)] |}
  | InBlock (op :: rest) =>
      match cap st with
      | Some c =>
          let (c', ev) := caller_op w op c (trace st) in
          Some {| cap := Some c'; main := InBlock rest;
                  drainer := drainer st; trace := trace st ++ [ev] |}
      | None => None
      end
  | InBlock [] =>
      Some {| cap := cap st; main := AtRelease;
              drainer := drainer st; trace := trace st |}
  | AtRelease =>
      match cap st with
      | Some c =>
          Some {| cap := Some (release c);
                  main := if low_latency inv then AtJoin
                          else Exited (ending inv);
                  drainer := drainer st;
                  trace := trace st ++ [(Coordinator, Release)] |}
      | None => None
      end
  | AtJoin =>
      match drainer st with
      | Finished =>
          Some {| cap := cap st; main := Exited (ending inv);
                  drainer := Finished;
                  trace := trace st ++ [(Coordinator, ThreadJoin)] |}
      | _ => None
      end
  | Exited _ => None
  end.

(** One step of the drain thread inside the whole state. *)
Definition drain_thread (w : World) (st : State) : option State :=
  match cap st with
  | Some c =>
      match clear_buffer w (drainer st) c (trace st) with
      | Some (pc, ev) =>
          Some {| cap := cap st; main := main st;
                  drainer := pc; trace := trace st ++ [ev] |}
      | None => None
      end
  | None => None
  end.

(** ** Interleaving *)

Inductive Tid : Type :=
| MainThread
| DrainThread.

Definition step (w : World) (inv : Invocation) (t : Tid) (st : State)
  : option State :=
  match t with
  | MainThread => cap_context w inv st
  | DrainThread => drain_thread w st
  end.

(** A scheduled thread that cannot move leaves the state as it is. *)
Definition tick (w : World) (inv : Invocation) (st : State) (t : Tid)
  : State :=
  match step w inv t st with
  | Some st' => st'
  | None => st
  end.

Definition run_from (w : World) (inv : Invocation) (st : State)
  (sched : list Tid) : State :=
  fold_left (tick w inv) sched st.

Definition run (w : World) (inv : Invocation) (sched : list Tid) : State :=
  run_from w inv initial sched.

(** The schedule that finishes any invocation from any point: the main
    thread runs up to its [join], the drain thread gets three steps (the
    rest of one iteration and one more test of the loop condition), and
    the main thread takes its last step. *)
Definition finish (inv : Invocation) : list Tid :=
  repeat MainThread (length (body inv) + 4)
  ++ [DrainThread; DrainThread; DrainThread] ++ [MainThread].

(** ** Reading a trace *)

Definition actor_eqb (a b : Actor) : bool :=
  match a, b with
  | Caller, Caller | Coordinator, Coordinator | Drainer, Drainer => true
  | _, _ => false
  end.

Definition is_release (c : Call) : bool :=
  match c with Release => true | _ => false end.

Definition is_grab (c : Call) : bool :=
  match c with Grab _ => true | _ => false end.

Definition is_start (c : Call) : bool :=
  match c with ThreadStart => true | _ => false end.

Definition is_join (c : Call) : bool :=
  match c with ThreadJoin => true | _ => false end.

(** The calls one actor made, in order. *)
Definition calls_of (a : Actor) (tr : list Event) : list Call :=
  map snd (filter (fun ev => actor_eqb (fst ev) a) tr).

(** How many calls of a kind an actor made. *)
Definition count (a : Actor) (kind : Call -> bool) (tr : list Event) : nat :=
  length (filter kind (calls_of a tr)).

(** How many calls of a kind were made on the handle by anyone. *)
Definition count_all (kind : Call -> bool) (tr : list Event) : nat :=
  length (filter kind (map snd tr)).

Definition caller_releases (ops : list CallerOp) : nat :=
  length (filter (fun op => match op with DoRelease => true | _ => false end)
            ops).

Arguments calls_of : simpl never.
Arguments count : simpl never.
Arguments count_all : simpl never.
Arguments caller_releases : simpl never.

(** One full iteration of the drain loop, as calls. *)
Definition iteration (answer : bool) : list Call :=
  [IsOpened true; Grab answer; Sleep0].

(** The calls of the iteration in progress at a program point. *)
Definition partial_iteration (pc : DrainerPc) (answer : bool) : list Call :=
  match pc with
  | NotStarted => []
  | AtWhile => []
  | AtGrab => [IsOpened true]
  | AtSleep => [IsOpened true; Grab answer]
  | Finished => [IsOpened false]
  end.

(** Whether the main thread has passed a program point. *)
Definition started_block (pc : MainPc) : bool :=
  match pc with
  | AtCreate | AtSpawn => false
  | _ => true
  end.

Definition in_teardown (pc : MainPc) : bool :=
  match pc with
  | AtJoin | Exited _ => true
  | _ => false
  end.

Definition has_exited (pc : MainPc) : bool :=
  match pc with
  | Exited _ => true
  | _ => false
  end.

Definition needs_thread (pc : MainPc) : bool :=
  match pc with
  | AtSpawn | AtJoin => true
  | _ => false
  end.

Definition is_closed (c : option VideoCapture) : bool :=
  match c with
  | Some h => negb (opened h)
  | None => false
  end.

(** ** Reading a pipeline description

    The launch syntax of the backend: stages separated by [!], each an
    element (or caps) name followed by [key=value] properties; after a
    caps name the fields are separated by commas. *)

Fixpoint split_on (sep : ascii) (s : string) : list string :=
  match s with
  | EmptyString => [EmptyString]
  | String c rest =>
      if Ascii.eqb c sep then EmptyString :: split_on sep rest
      else match split_on sep rest with
           | tok :: toks => String c tok :: toks
           | [] => [String c EmptyString]
           end
  end.

Fixpoint has_char (c : ascii) (s : string) : bool :=
  match s with
  | EmptyString => false
  | String a rest => Ascii.eqb a c || has_char c rest
  end.

Definition words (s : string) : list string :=
  filter (fun t => negb (String.eqb t "")) (split_on " " s).

Fixpoint split_stages (toks : list string) : list (list string) :=
  match toks with
  | [] => [[]]
  | t :: rest =>
      if String.eqb t "!" then [] :: split_stages rest
      else match split_stages rest with
           | st :: sts => (t :: st) :: sts
           | [] => [[t]]
           end
  end.

Fixpoint strip_comma (s : string) : string :=
  match s with
  | EmptyString => EmptyString
  | String c EmptyString =>
      if Ascii.eqb c "," then EmptyString else String c EmptyString
  | String c rest => String c (strip_comma rest)
  end.

Fixpoint cut_at (c : ascii) (s : string) : option (string * string) :=
  match s with
  | EmptyString => None
  | String a rest =>
      if Ascii.eqb a c then Some (EmptyString, rest)
      else match cut_at c rest with
           | Some (k, v) => Some (String a k, v)
           | None => None
           end
  end.

Definition property (tok : string) : option (string * string) :=
  match cut_at "=" tok with
  | Some (k, v) => Some (k, strip_comma v)
  | None => None
  end.

Fixpoint properties (toks : list string) : list (string * string) :=
  match toks with
  | [] => []
  | t :: rest =>
      match property t with
      | Some kv => kv :: properties rest
      | None => properties rest
      end
  end.

Record Stage : Type := mkStage
  { element : string;
    props : list (string * string) }.

Definition stage_of (toks : list string) : Stage :=
  match toks with
  | [] => {| element := ""; props := [] |}
  | name :: rest => {| element := strip_comma name; props := properties rest |}
  end.

Definition parse_launch (s : string) : list Stage :=
  map stage_of (split_stages (words s)).

Fixpoint lookup (key : string) (kvs : list (string * string))
  : option string :=
  match kvs with
  | [] => None
  | (k, v) :: rest => if String.eqb k key then Some v else lookup key rest
  end.

(** The value of a property of the [i]-th stage of a description. *)
Definition stage_prop (s : string) (i : nat) (key : string) : option string :=
  match nth_error (parse_launch s) i with
  | Some st => lookup key (props st)
  | None => None
  end.

Definition stage_element (s : string) (i : nat) : option string :=
  option_map element (nth_error (parse_launch s) i).

(** The words and the stages one expects to find in the description of
    [create_cap], used to state what reading it gives. *)
Definition pipeline_words (w : World) (width height : Z) (low_latency : bool)
  : list string :=
  [ "nvarguscamerasrc"; "sensor-mode=0";
    "tnr-mode=" ++ (if low_latency then "0" else "2");
    "!"; "nvvidconv";
    "interpolation-method=" ++ (if low_latency then "Nearest" else "Nicest");
    "output-buffers=1";
    "!"; "video/x-raw,";
    "width=" ++ (Py.str_int width ++ ",");
    "height=" ++ (Py.str_int height ++ ",");
    "format=BGRx";
    "!"; "videoconvert";
    "n-threads=" ++ Py.str_cpu_count (cpu_count w);
    "!"; "video/x-raw,"; "format=(string)BGR";
    "!"; "appsink" ].

Definition pipeline_stages (w : World) (width height : Z) (low_latency : bool)
  : list Stage :=
  [ {| element := "nvarguscamerasrc";
       props := [("sensor-mode", "0");
                 ("tnr-mode", if low_latency then "0" else "2")] |};
    {| element := "nvvidconv";
       props := [("interpolation-method",
                   if low_latency then "Nearest" else "Nicest");
                 ("output-buffers", "1")] |};
    {| element := "video/x-raw";
       props := [("width", Py.str_int width);
                 ("height", Py.str_int height);
                 ("format", "BGRx")] |};
    {| element := "videoconvert";
       props := [("n-threads", Py.str_cpu_count (cpu_count w))] |};
    {| element := "video/x-raw"; props := [("format", "(string)BGR")] |};
    {| element := "appsink"; props := [] |} ].

(** The words and the stages of the f-string over given texts. *)
Definition text_words (width_text height_text cpu_text : string)
  (low_latency : bool) : list string :=
  [ "nvarguscamerasrc"; "sensor-mode=0";
    "tnr-mode=" ++ (if low_latency then "0" else "2");
    "!"; "nvvidconv";
    "interpolation-method=" ++ (if low_latency then "Nearest" else "Nicest");
    "output-buffers=1";
    "!"; "video/x-raw,";
    "width=" ++ (width_text ++ ",");
    "height=" ++ (height_text ++ ",");
    "format=BGRx";
    "!"; "videoconvert";
    "n-threads=" ++ cpu_text;
    "!"; "video/x-raw,"; "format=(string)BGR";
    "!"; "appsink" ].

Definition text_stages (width_text height_text cpu_text : string)
  (low_latency : bool) : list Stage :=
  [ {| element := "nvarguscamerasrc";
       props := [("sensor-mode", "0");
                 ("tnr-mode", if low_latency then "0" else "2")] |};
    {| element := "nvvidconv";
       props := [("interpolation-method",
                   if low_latency then "Nearest" else "Nicest");
                 ("output-buffers", "1")] |};
    {| element := "video/x-raw";
       props := [("width", width_text);
                 ("height", height_text);
                 ("format", "BGRx")] |};
    {| element := "videoconvert"; props := [("n-threads", cpu_text)] |};
    {| element := "video/x-raw"; props := [("format", "(string)BGR")] |};
    {| element := "appsink"; props := [] |} ].

(** ** More ways to read a trace and a schedule *)

(** Whether anyone has released the handle. *)
Definition released (tr : list Event) : bool :=
  existsb (fun ev => is_release (snd ev)) tr.

(** The events that follow the first release of the handle. *)
Fixpoint after_release (tr : list Event) : list Event :=
  match tr with
  | [] => []
  | ev :: rest => if is_release (snd ev) then rest else after_release rest
  end.

(** A grab that delivered a frame. *)
Definition is_live_grab (c : Call) : bool :=
  match c with Grab true => true | _ => false end.

(** An open-status query that was answered "closed". *)
Definition is_closed_answer (c : Call) : bool :=
  match c with IsOpened false => true | _ => false end.

(** An open-status query that was answered "open". *)
Definition is_open_answer (c : Call) : bool :=
  match c with IsOpened true => true | _ => false end.

Definition is_main (t : Tid) : bool :=
  match t with MainThread => true | DrainThread => false end.

(** The calls [cap_context] itself has made when its thread is at a
    program point. *)
Definition coordinator_calls (w : World) (inv : Invocation) (pc : MainPc)
  : list Call :=
  let descr := pipeline w (width inv) (height inv) (low_latency inv) in
  let construct := Construct descr (pipeline_opens w descr) in
  let start := if low_latency inv then [ThreadStart] else [] in
  match pc with
  | AtCreate => []
  | AtSpawn => [construct]
  | InBlock _ | AtRelease => construct :: start
  | AtJoin => construct :: start ++ [Release]
  | Exited _ =>
      construct :: start ++ [Release]
        ++ (if low_latency inv then [ThreadJoin] else [])
  end.

(** A schedule that keeps switching between the two threads. *)
Definition alternating (n : nat) : list Tid :=
  concat (repeat [MainThread; DrainThread] n).

(** ** Sample inputs *)

Definition jetson : World :=
  {| cpu_count := Some 4%Z;
     pipeline_opens := fun _ => true;
     frame_ready := fun _ => true |}.

Definition no_camera : World :=
  {| cpu_count := Some 4%Z;
     pipeline_opens := fun _ => false;
     frame_ready := fun _ => false |}.

(** A schedule in which the drain thread runs while the block does. *)
Definition interleaved : list Tid :=
  [MainThread; MainThread; DrainThread; DrainThread; MainThread;
   DrainThread; DrainThread].

Definition doctest (ll : bool) (how : Py.outcome) : Invocation :=
  {| width := 640; height := 480; low_latency := ll;
     body := [DoRead; DoIsOpened]; ending := how |}.

(** The operations of the block that have not run yet. *)
Definition remaining (inv : Invocation) (pc : MainPc) : list CallerOp :=
  match pc with
  | AtCreate | AtSpawn => body inv
  | InBlock rest => rest
  | _ => []
  end.

(** How many steps the main thread still takes before it waits in, or has
    passed, the teardown. *)
Definition main_rank (inv : Invocation) (pc : MainPc) : nat :=
  match pc with
  | AtCreate => length (body inv) + 4
  | AtSpawn => length (body inv) + 3
  | InBlock rest => length rest + 2
  | AtRelease => 1
  | AtJoin | Exited _ => 0
  end.

(** How many steps the drain thread still takes once the handle is closed. *)
Definition drain_rank (pc : DrainerPc) : nat :=
  match pc with
  | AtGrab => 3
  | AtSleep => 2
  | AtWhile => 1
  | NotStarted | Finished => 0
  end.

Definition is_drain (t : Tid) : bool :=
  match t with DrainThread => true | MainThread => false end.

(** The calls the drain loop is made of. *)
Definition is_drain_call (c : Call) : bool :=
  match c with
  | IsOpened _ | Grab _ | Sleep0 => true
  | _ => false
  end.

(** ** The transitions, one by one *)

Inductive Step (w : World) (inv : Invocation) : State -> State -> Prop :=
| S_create c0 d tr :
    let descr := pipeline w (width inv) (height inv) (low_latency inv) in
    Step w inv
      (mkState c0 AtCreate d tr)
      (mkState (Some (mkCapture descr (pipeline_opens w descr)))
         (if low_latency inv then AtSpawn else InBlock (body inv)) d
         (tr ++ [(Coordinator, Construct descr (pipeline_opens w descr))]))
| S_spawn c d tr :
    Step w inv
      (mkState c AtSpawn d tr)
      (mkState c (InBlock (body inv)) AtWhile
         (tr ++ [(Coordinator, ThreadStart)]))
| S_block c op rest d tr :
    Step w inv
      (mkState (Some c) (InBlock (op :: rest)) d tr)
      (mkState (Some (fst (caller_op w op c tr))) (InBlock rest) d
         (tr ++ [snd (caller_op w op c tr)]))
| S_leave c d tr :
    Step w inv (mkState c (InBlock []) d tr) (mkState c AtRelease d tr)
| S_release c d tr :
    Step w inv
      (mkState (Some c) AtRelease d tr)
      (mkState (Some (release c))
         (if low_latency inv then AtJoin else Exited (ending inv)) d
         (tr ++ [(Coordinator, Release)]))
| S_join c tr :
    Step w inv
      (mkState c AtJoin Finished tr)
      (mkState c (Exited (ending inv)) Finished
         (tr ++ [(Coordinator, ThreadJoin)]))
| S_while_open c m tr :
    opened c = true ->
    Step w inv
      (mkState (Some c) m AtWhile tr)
      (mkState (Some c) m AtGrab (tr ++ [(Drainer, IsOpened true)]))
| S_while_closed c m tr :
    opened c = false ->
    Step w inv
      (mkState (Some c) m AtWhile tr)
      (mkState (Some c) m Finished (tr ++ [(Drainer, IsOpened false)]))
| S_grab c m tr :
    Step w inv
      (mkState (Some c) m AtGrab tr)
      (mkState (Some c) m AtSleep
         (tr ++ [(Drainer, Grab (grab c (frame_ready w tr)))]))
| S_sleep c m tr :
    Step w inv
      (mkState (Some c) m AtSleep tr)
      (mkState (Some c) m AtWhile (tr ++ [(Drainer, Sleep0)])).

(** ** What holds in every state a schedule can reach *)

Record Inv (w : World) (inv : Invocation) (st : State) : Prop := mkInv
  { inv_cap :
      match main st with
      | AtCreate => cap st = None /\ trace st = []
      | _ =>
          exists c, cap st = Some c
            /\ (opened c = true ->
                pipeline_opens w
                  (pipeline w (width inv) (height inv) (low_latency inv))
                = true)
      end;
    inv_ll :
      needs_thread (main st) = true -> low_latency inv = true;
    inv_drainer :
      drainer st = NotStarted
      <-> low_latency inv && started_block (main st) = false;
    inv_closed :
      in_teardown (main st) = true -> is_closed (cap st) = true;
    inv_joined :
      has_exited (main st) = true -> low_latency inv = true ->
      drainer st = Finished;
    inv_suffix :
      exists done, body inv = (done ++ remaining inv (main st))%list;
    inv_ending :
      forall how, main st = Exited how -> how = ending inv;
    inv_releases :
      count Coordinator is_release (trace st)
      = if in_teardown (main st) then 1 else 0;
    inv_starts :
      count Coordinator is_start (trace st)
      = if low_latency inv && started_block (main st) then 1 else 0;
    inv_joins :
      count Coordinator is_join (trace st)
      = if low_latency inv && has_exited (main st) then 1 else 0;
    inv_no_grab :
      count Coordinator is_grab (trace st) = 0;
    inv_caller_releases :
      count Caller is_release (trace st)
        + caller_releases (remaining inv (main st))
      = caller_releases (body inv);
    inv_pattern :
      exists answers a,
        calls_of Drainer (trace st)
        = (concat (map iteration answers)
           ++ partial_iteration (drainer st) a)%list
        /\ (drainer st = NotStarted -> answers = [])
        /\ (pipeline_opens w
              (pipeline w (width inv) (height inv) (low_latency inv)) = false ->
            answers = [] /\ drainer st <> AtGrab /\ drainer st <> AtSleep);
    inv_order :
      forall pre post,
        trace st = (pre ++ (Coordinator, ThreadJoin) :: post)%list ->
        In (Coordinator, Release) pre }.

(** * Proofs *)

Ltac ll_cases inv := destruct (low_latency inv) eqn:?; cbn in *.

(** ** The step function and the transitions agree *)

Lemma step_Step w inv t st st' :
  step w inv t st = Some st' -> Step w inv st st'.
Proof.
  destruct st as [c m d tr], t; cbn.
  - unfold cap_context; cbn.
    destruct m as [| |[|op rest]| | |how]; cbn; intros H.
    + inversion H; subst. apply S_create.
    + inversion H; subst. apply S_spawn.
    + inversion H; subst. apply S_leave.
    + destruct c as [c|]; [|discriminate].
      destruct (caller_op w op c tr) as [c' ev] eqn:E.
      inversion H; subst.
      replace c' with (fst (caller_op w op c tr)) by (rewrite E; reflexivity).
      replace ev with (snd (caller_op w op c tr)) by (rewrite E; reflexivity).
      apply S_block.
    + destruct c as [c|]; [|discriminate].
      inversion H; subst. apply S_release.
    + destruct d; try discriminate.
      inversion H; subst. apply S_join.
    + discriminate.
  - unfold drain_thread; cbn.
    destruct c as [c|]; [|discriminate].
    destruct d; cbn; try discriminate.
    + unfold isOpened. destruct (opened c) eqn:E; intros H; inversion H; subst.
      * now apply S_while_open.
      * now apply S_while_closed.
    + intros H; inversion H; subst. apply S_grab.
    + intros H; inversion H; subst. apply S_sleep.
Qed.

Lemma Step_step w inv st st' :
  Step w inv st st' -> exists t, step w inv t st = Some st'.
Proof.
  intros H; destruct H.
  - exists MainThread; reflexivity.
  - exists MainThread; reflexivity.
  - exists MainThread; cbn. unfold cap_context; cbn.
    destruct (caller_op w op c tr); reflexivity.
  - exists MainThread; reflexivity.
  - exists MainThread; reflexivity.
  - exists MainThread; reflexivity.
  - exists DrainThread; cbn. unfold drain_thread; cbn.
    unfold isOpened; now rewrite H.
  - exists DrainThread; cbn. unfold drain_thread; cbn.
    unfold isOpened; now rewrite H.
  - exists DrainThread; reflexivity.
  - exists DrainThread; reflexivity.
Qed.

(** ** Traces grow at the end *)

Lemma calls_of_snoc a e tr :
  calls_of a (tr ++ [e])
  = (calls_of a tr ++ if actor_eqb (fst e) a then [snd e] else [])%list.
Proof.
  unfold calls_of. rewrite filter_app, map_app. cbn.
  destruct (actor_eqb (fst e) a); reflexivity.
Qed.

Lemma count_snoc a kind e tr :
  count a kind (tr ++ [e])
  = count a kind tr + if actor_eqb (fst e) a && kind (snd e) then 1 else 0.
Proof.
  unfold count. rewrite calls_of_snoc, filter_app, length_app.
  destruct (actor_eqb (fst e) a); cbn; [destruct (kind (snd e))|]; reflexivity.
Qed.

Lemma count_all_snoc kind e tr :
  count_all kind (tr ++ [e])
  = count_all kind tr + if kind (snd e) then 1 else 0.
Proof.
  unfold count_all. rewrite map_app, filter_app, length_app. cbn.
  destruct (kind (snd e)); reflexivity.
Qed.

Lemma count_all_split kind tr :
  count_all kind tr
  = count Caller kind tr + count Coordinator kind tr + count Drainer kind tr.
Proof.
  induction tr as [|[a c] tr IH] using rev_ind; [reflexivity|].
  rewrite count_all_snoc, !count_snoc, IH. cbn.
  destruct a, (kind c); cbn; lia.
Qed.

Lemma snoc_split {A} (xs pre post : list A) (x y : A) :
  (xs ++ [x] = pre ++ y :: post)%list ->
  (post = [] /\ x = y /\ xs = pre)
  \/ exists post', post = (post' ++ [x])%list /\ xs = (pre ++ y :: post')%list.
Proof.
  intros H. destruct post as [|p post] using rev_ind.
  - left. apply app_inj_tail in H. intuition congruence.
  - right. exists post. clear IHpost.
    change (pre ++ y :: post ++ [p])%list
      with (pre ++ (y :: post) ++ [p])%list in H.
    rewrite app_assoc in H. apply app_inj_tail in H.
    destruct H as [H1 H2]. subst. split; reflexivity.
Qed.

Lemma count_pos_In a kind tr :
  0 < count a kind tr ->
  exists c, In (a, c) tr /\ kind c = true.
Proof.
  induction tr as [|[b c] tr IH] using rev_ind; [cbv; lia|].
  rewrite count_snoc. cbn. intros H.
  destruct (actor_eqb b a && kind c) eqn:E.
  - apply andb_true_iff in E. destruct E as [Ea Ek].
    exists c. split; [|assumption].
    apply in_or_app. right. left.
    destruct a, b; try discriminate; reflexivity.
  - destruct IH as [c' [Hin Hk]]; [lia|].
    exists c'. split; [|assumption]. apply in_or_app. now left.
Qed.

Lemma caller_op_release w op c tr :
  (if is_release (snd (snd (caller_op w op c tr))) then 1 else 0)
  = caller_releases [op].
Proof. destruct op; reflexivity. Qed.

Lemma caller_op_actor w op c tr :
  fst (snd (caller_op w op c tr)) = Caller.
Proof. destruct op; reflexivity. Qed.

Lemma caller_op_closes w op c tr :
  opened (fst (caller_op w op c tr)) = true -> opened c = true.
Proof. destruct op; cbn; congruence. Qed.

Lemma caller_op_not_join w op c tr :
  snd (caller_op w op c tr) <> (Coordinator, ThreadJoin).
Proof. destruct op; cbn; congruence. Qed.

(** ** The invariant *)

Lemma Inv_initial w inv : Inv w inv initial.
Proof.
  constructor; cbn; try reflexivity; try discriminate; auto;
    try (rewrite andb_false_r; tauto).
  - exists []. reflexivity.
  - exists [], true. repeat split; auto; discriminate.
  - intros [|? ?] ? H; discriminate.
Qed.

Lemma Step_cap w inv st st' :
  Inv w inv st -> Step w inv st st' ->
  match main st' with
  | AtCreate => cap st' = None /\ trace st' = []
  | _ =>
      exists c, cap st' = Some c
        /\ (opened c = true ->
            pipeline_opens w
              (pipeline w (width inv) (height inv) (low_latency inv))
            = true)
  end.
Proof.
  intros HI HS. pose proof (inv_cap _ _ _ HI) as Hcap.
  destruct HS; cbn in *.
  - assert (exists c, Some (mkCapture descr (pipeline_opens w descr)) = Some c
       /\ (opened c = true -> pipeline_opens w descr = true))
      by (eexists; split; [reflexivity|cbn; auto]).
    ll_cases inv; assumption.
  - assumption.
  - destruct Hcap as [c' [E H]]. inversion E; subst c'.
    eexists; split; [reflexivity|].
    intros H'. apply H. eapply caller_op_closes; eassumption.
  - assumption.
  - assert (exists c', Some (release c) = Some c'
       /\ (opened c' = true -> pipeline_opens w
            (pipeline w (width inv) (height inv) (low_latency inv)) = true))
      by (eexists; split; [reflexivity|cbn; discriminate]).
    ll_cases inv; assumption.
  - assumption.
  - destruct m; try assumption. destruct Hcap; discriminate.
  - destruct m; try assumption. destruct Hcap; discriminate.
  - destruct m; try assumption. destruct Hcap; discriminate.
  - destruct m; try assumption. destruct Hcap; discriminate.
Qed.

Lemma Step_control w inv st st' :
  Inv w inv st -> Step w inv st st' ->
  (needs_thread (main st') = true -> low_latency inv = true)
  /\ (drainer st' = NotStarted
     <-> low_latency inv && started_block (main st') = false)
  /\ (in_teardown (main st') = true -> is_closed (cap st') = true)
  /\ (has_exited (main st') = true -> low_latency inv = true ->
      drainer st' = Finished)
  /\ (exists done, body inv = (done ++ remaining inv (main st'))%list)
  /\ (forall how, main st' = Exited how -> how = ending inv).
Proof.
  intros HI HS.
  destruct HI as [Hcap Hll Hdr Hcl Hj Hsuf Hend _ _ _ _ _ _ _].
  destruct HS; cbn in *.
  all: try (specialize (Hll eq_refl)).
  all: try (destruct m; cbn in *).
  all: ll_cases inv.
  all: repeat split; intros; try discriminate; try tauto; auto.
  all: try (rewrite ?andb_true_r, ?andb_false_r in *; cbn in *).
  all: try congruence.
  all: try (destruct Hdr as [H1 H2]; try discriminate (H2 eq_refl)).
  all: try discriminate (Hj eq_refl eq_refl).
  all: destruct Hsuf as [done Hsuf]; exists (done ++ [op])%list;
    rewrite <- app_assoc; exact Hsuf.
Qed.

Lemma Step_counts w inv st st' :
  Inv w inv st -> Step w inv st st' ->
  count Coordinator is_release (trace st')
    = (if in_teardown (main st') then 1 else 0)
  /\ count Coordinator is_start (trace st')
    = (if low_latency inv && started_block (main st') then 1 else 0)
  /\ count Coordinator is_join (trace st')
    = (if low_latency inv && has_exited (main st') then 1 else 0)
  /\ count Coordinator is_grab (trace st') = 0
  /\ count Caller is_release (trace st')
      + caller_releases (remaining inv (main st'))
    = caller_releases (body inv).
Proof.
  intros HI HS.
  destruct HI as [_ Hll _ _ _ _ _ Hrel Hst Hjo Hng Hcr _ _].
  destruct HS; cbn in *.
  all: try (specialize (Hll eq_refl)).
  all: rewrite ?count_snoc; cbn.
  all: rewrite ?caller_op_actor; cbn.
  all: rewrite ?Hrel, ?Hst, ?Hjo, ?Hng.
  all: try (destruct m; cbn in * ).
  all: ll_cases inv; try discriminate.
  all: repeat split; try lia.
  all: rewrite <- Hcr; destruct op; cbn; unfold caller_releases; cbn; lia.
Qed.

Lemma iteration_snoc answers a :
  (concat (map iteration answers) ++ [IsOpened true; Grab a] ++ [Sleep0])%list
  = concat (map iteration (answers ++ [a])).
Proof.
  rewrite map_app, concat_app. cbn. reflexivity.
Qed.

Lemma Step_pattern w inv st st' :
  Inv w inv st -> Step w inv st st' ->
  exists answers a,
    calls_of Drainer (trace st')
    = (concat (map iteration answers)
       ++ partial_iteration (drainer st') a)%list
    /\ (drainer st' = NotStarted -> answers = [])
    /\ (pipeline_opens w
          (pipeline w (width inv) (height inv) (low_latency inv)) = false ->
        answers = [] /\ drainer st' <> AtGrab /\ drainer st' <> AtSleep).
Proof.
  intros HI HS.
  destruct HI as [Hcap _ Hdr _ _ _ _ _ _ _ _ _ Hpat _].
  destruct Hpat as [answers [a [Hcalls [Hns Hno]]]].
  destruct HS; cbn in *; rewrite ?calls_of_snoc; cbn;
    rewrite ?caller_op_actor; cbn; rewrite ?app_nil_r.
  - exists answers, a. auto.
  - rewrite andb_false_r in Hdr. destruct Hdr as [_ Hd].
    specialize (Hd eq_refl). subst d.
    exists answers, a. repeat split; try tauto; try discriminate.
  - exists answers, a. auto.
  - exists answers, a. auto.
  - exists answers, a. auto.
  - exists answers, a. auto.
  - exists answers, a. rewrite Hcalls. cbn. rewrite app_nil_r.
    split; [reflexivity|]. split; [discriminate|].
    intros Hc; exfalso.
    assert (Ho : pipeline_opens w
           (pipeline w (width inv) (height inv) (low_latency inv)) = true)
      by (destruct m; [destruct Hcap; discriminate|..];
          destruct Hcap as [c' [E Hopen]]; inversion E; subst c'; auto).
    congruence.
  - exists answers, a. rewrite Hcalls. cbn. rewrite app_nil_r.
    split; [reflexivity|]. split; [discriminate|].
    intros Hc. split; [now apply Hno|]. split; discriminate.
  - exists answers, (grab c (frame_ready w tr)). rewrite Hcalls. cbn.
    rewrite <- app_assoc. cbn.
    split; [reflexivity|]. split; [discriminate|].
    intros Hc; exfalso; destruct (Hno Hc) as [_ [Hg _]]; congruence.
  - exists (answers ++ [a])%list, a. rewrite Hcalls. cbn.
    rewrite app_nil_r. rewrite <- iteration_snoc, <- app_assoc.
    split; [reflexivity|]. split; [discriminate|].
    intros Hc; exfalso; destruct (Hno Hc) as [_ [_ Hs]]; congruence.
Qed.

Lemma Step_order w inv st st' :
  Inv w inv st -> Step w inv st st' ->
  forall pre post,
    trace st' = (pre ++ (Coordinator, ThreadJoin) :: post)%list ->
    In (Coordinator, Release) pre.
Proof.
  intros HI HS.
  destruct HI as [_ _ _ _ _ _ _ Hrel _ _ _ _ _ Hord].
  destruct HS; cbn in *; intros pre post E; try (eapply Hord; eassumption).
  all: apply snoc_split in E.
  all: destruct E as [[_ [Ee Ep]]|[post' [_ E]]];
    try (eapply Hord; eassumption); try discriminate.
  - exfalso. eapply caller_op_not_join; eassumption.
  - subst pre.
    destruct (count_pos_In Coordinator is_release tr) as [k [Hin Hk]];
      [rewrite Hrel; lia|].
    destruct k; try discriminate. assumption.
Qed.

Lemma Inv_Step w inv st st' :
  Inv w inv st -> Step w inv st st' -> Inv w inv st'.
Proof.
  intros HI HS.
  pose proof (Step_cap _ _ _ _ HI HS).
  pose proof (Step_control _ _ _ _ HI HS) as [? [? [? [? [? ?]]]]].
  pose proof (Step_counts _ _ _ _ HI HS) as [? [? [? [? ?]]]].
  pose proof (Step_pattern _ _ _ _ HI HS).
  pose proof (Step_order _ _ _ _ HI HS).
  constructor; assumption.
Qed.

Lemma Inv_tick w inv st t : Inv w inv st -> Inv w inv (tick w inv st t).
Proof.
  intros HI. unfold tick. destruct (step w inv t st) as [st'|] eqn:E.
  - eapply Inv_Step; [eassumption|]. eapply step_Step; eassumption.
  - assumption.
Qed.

Lemma Inv_run_from w inv sched :
  forall st, Inv w inv st -> Inv w inv (run_from w inv st sched).
Proof.
  induction sched as [|t sched IH]; intros st HI; cbn; [assumption|].
  apply IH. now apply Inv_tick.
Qed.

Lemma Inv_run w inv sched : Inv w inv (run w inv sched).
Proof. apply Inv_run_from, Inv_initial. Qed.

(** ** Every invocation can be run to its end *)

Lemma run_from_app w inv st s1 s2 :
  run_from w inv st (s1 ++ s2) = run_from w inv (run_from w inv st s1) s2.
Proof. apply fold_left_app. Qed.

Lemma main_rank_bound w inv st :
  Inv w inv st -> main_rank inv (main st) <= length (body inv) + 4.
Proof.
  intros HI. destruct (inv_suffix _ _ _ HI) as [done E].
  apply (f_equal (@length _)) in E. rewrite length_app in E.
  destruct (main st); cbn in *; lia.
Qed.

Lemma main_tick_rank w inv st :
  Inv w inv st ->
  main_rank inv (main (tick w inv st MainThread))
  <= pred (main_rank inv (main st)).
Proof.
  intros HI. pose proof (inv_cap _ _ _ HI) as Hcap.
  destruct st as [c m d tr]; cbn in *.
  unfold tick, step, cap_context; cbn.
  destruct m as [| |[|op rest]| | |how]; cbn.
  - ll_cases inv; lia.
  - lia.
  - lia.
  - destruct Hcap as [c' [E _]]; subst c.
    destruct (caller_op w op c' tr); cbn. lia.
  - destruct Hcap as [c' [E _]]; subst c. ll_cases inv; lia.
  - destruct d; cbn; lia.
  - lia.
Qed.

Lemma main_reaches_teardown w inv n :
  forall st, Inv w inv st -> main_rank inv (main st) <= n ->
  in_teardown (main (run_from w inv st (repeat MainThread n))) = true.
Proof.
  induction n as [|n IH]; intros st HI Hr; cbn.
  - destruct (main st); cbn in *; try lia; reflexivity.
  - apply IH; [now apply Inv_tick|].
    pose proof (main_tick_rank w inv st HI). lia.
Qed.

Lemma drain_reaches_end w inv st :
  Inv w inv st -> in_teardown (main st) = true ->
  low_latency inv = true ->
  let st' := run_from w inv st [DrainThread; DrainThread; DrainThread] in
  drainer st' = Finished /\ main st' = main st.
Proof.
  intros HI Ht Hl.
  pose proof (inv_closed _ _ _ HI Ht) as Hc.
  pose proof (inv_drainer _ _ _ HI) as Hd.
  destruct st as [[[descr o]|] m d tr]; cbn in *; try discriminate.
  destruct o; try discriminate.
  rewrite Hl in Hd.
  destruct d; cbn; auto.
  destruct m; cbn in *; try discriminate; destruct Hd as [Hd _];
    discriminate (Hd eq_refl).
Qed.

Lemma join_returns w inv st :
  Inv w inv st -> in_teardown (main st) = true ->
  (low_latency inv = true -> drainer st = Finished) ->
  main (tick w inv st MainThread) = Exited (ending inv).
Proof.
  intros HI Ht Hf. pose proof (inv_ll _ _ _ HI) as Hl.
  pose proof (inv_ending _ _ _ HI) as He.
  destruct st as [c m d tr]; cbn in *.
  destruct m; try discriminate; unfold tick; cbn.
  - rewrite (Hf (Hl eq_refl)). reflexivity.
  - f_equal. now apply He.
Qed.

Lemma finish_exits w inv st :
  Inv w inv st ->
  main (run_from w inv st (finish inv)) = Exited (ending inv).
Proof.
  intros HI. unfold finish. rewrite !run_from_app.
  set (st1 := run_from w inv st (repeat MainThread (length (body inv) + 4))).
  assert (HI1 : Inv w inv st1) by now apply Inv_run_from.
  assert (Ht1 : in_teardown (main st1) = true)
    by (apply main_reaches_teardown; [assumption|];
        now apply (main_rank_bound w)).
  set (st2 := run_from w inv st1 [DrainThread; DrainThread; DrainThread]).
  assert (HI2 : Inv w inv st2) by now apply Inv_run_from.
  destruct (low_latency inv) eqn:Hl.
  - destruct (drain_reaches_end w inv st1 HI1 Ht1 Hl) as [Hd Hm].
    fold st2 in Hd, Hm.
    apply join_returns; [assumption|congruence|auto].
  - assert (Hm : main st2 = main st1).
    { pose proof (inv_drainer _ _ _ HI1) as Hd. rewrite Hl in Hd.
      destruct Hd as [_ Hd]. specialize (Hd eq_refl).
      pose proof (inv_cap _ _ _ HI1) as Hc.
      subst st2. destruct st1 as [c m d tr]; cbn in *. subst d.
      unfold tick; cbn. unfold drain_thread; cbn.
      destruct c; reflexivity. }
    apply join_returns; [assumption|congruence|congruence].
Qed.

Lemma run_finish_exits w inv sched :
  main (run w inv (sched ++ finish inv)) = Exited (ending inv).
Proof.
  unfold run. rewrite run_from_app. apply finish_exits, Inv_run.
Qed.

(** Once the scope is left nothing moves any more. *)
Lemma exited_is_final w inv st t :
  Inv w inv st -> has_exited (main st) = true -> step w inv t st = None.
Proof.
  intros HI He.
  pose proof (inv_joined _ _ _ HI He) as Hj.
  pose proof (inv_drainer _ _ _ HI) as Hd.
  destruct st as [c m d tr]; cbn in *.
  destruct m; try discriminate. destruct t; cbn; [reflexivity|].
  unfold drain_thread; cbn. destruct c; [|reflexivity].
  destruct (low_latency inv); cbn in *.
  - rewrite (Hj eq_refl). reflexivity.
  - destruct Hd as [_ Hd]. rewrite (Hd eq_refl). reflexivity.
Qed.

Lemma exited_run_from w inv sched :
  forall st, Inv w inv st -> has_exited (main st) = true ->
  run_from w inv st sched = st.
Proof.
  induction sched as [|t sched IH]; intros st HI He; cbn; [reflexivity|].
  assert (E : tick w inv st t = st)
    by (unfold tick; now rewrite (exited_is_final w inv st t HI He)).
  rewrite E. now apply IH.
Qed.

(** ** A closed handle stops the drain thread *)

Lemma closed_tick w inv st t :
  Inv w inv st -> is_closed (cap st) = true ->
  is_closed (cap (tick w inv st t)) = true.
Proof.
  intros HI Hc. unfold tick.
  destruct (step w inv t st) as [st'|] eqn:E; [|assumption].
  apply step_Step in E. pose proof (inv_cap _ _ _ HI) as Hcap.
  destruct E; cbn in *; try assumption.
  - destruct Hcap as [Hn _]. subst c0. discriminate.
  - destruct (opened (fst (caller_op w op c tr))) eqn:Eo; [|reflexivity].
    apply caller_op_closes in Eo. rewrite Eo in Hc. discriminate.
  - reflexivity.
Qed.

Lemma cap_context_drainer w inv st st' :
  cap_context w inv st = Some st' ->
  drainer st' = drainer st \/ (main st = AtSpawn /\ drainer st' = AtWhile).
Proof.
  destruct st as [c m d tr]; unfold cap_context; cbn.
  destruct m as [| |[|op rest]| | |how]; cbn; intros H.
  - inversion H; auto.
  - inversion H; auto.
  - inversion H; auto.
  - destruct c as [c|]; [|discriminate].
    destruct (caller_op w op c tr). inversion H; auto.
  - destruct c as [c|]; [|discriminate]. inversion H; auto.
  - destruct d; try discriminate. inversion H; auto.
  - discriminate.
Qed.

Lemma started_tick w inv st t :
  Inv w inv st -> drainer st <> NotStarted ->
  drainer (tick w inv st t) <> NotStarted
  /\ (t = MainThread -> drainer (tick w inv st t) = drainer st).
Proof.
  intros HI Hs. unfold tick.
  destruct (step w inv t st) as [st'|] eqn:E; [|auto].
  pose proof (inv_drainer _ _ _ HI) as Hd.
  destruct t; cbn in E.
  - destruct (cap_context_drainer _ _ _ _ E) as [Ed|[Em Ed]].
    + rewrite Ed. auto.
    + rewrite Em in Hd. cbn in Hd. rewrite andb_false_r in Hd. tauto.
  - apply (step_Step w inv DrainThread) in E.
    destruct E; cbn in *; split; try discriminate; auto.
Qed.

Lemma drain_tick_rank w inv st :
  is_closed (cap st) = true ->
  drain_rank (drainer (tick w inv st DrainThread))
  <= pred (drain_rank (drainer st)).
Proof.
  intros Hc. destruct st as [[[descr o]|] m d tr]; cbn in *; try discriminate.
  destruct o; try discriminate.
  destruct d; cbn; lia.
Qed.

Lemma closed_drainer_finishes w inv sched :
  forall st, Inv w inv st -> is_closed (cap st) = true ->
  drainer st <> NotStarted ->
  drain_rank (drainer st) <= length (filter is_drain sched) ->
  drainer (run_from w inv st sched) = Finished.
Proof.
  induction sched as [|t sched IH]; intros st HI Hc Hs Hr; cbn in *.
  - destruct (drainer st); cbn in *; try lia; congruence.
  - destruct (started_tick w inv st t HI Hs) as [Hs' Hm].
    apply IH; auto using Inv_tick, closed_tick.
    destruct t; cbn in *.
    + rewrite (Hm eq_refl). assumption.
    + pose proof (drain_tick_rank w inv st Hc). lia.
Qed.

Lemma drain_rank_le_3 pc : drain_rank pc <= 3.
Proof. destruct pc; cbn; lia. Qed.

(** ** What the drain thread calls *)

Lemma iterations_drain_calls answers :
  forallb is_drain_call (concat (map iteration answers)) = true.
Proof. induction answers as [|a l IH]; cbn; auto. Qed.

Lemma drain_calls_no_release l :
  forallb is_drain_call l = true -> length (filter is_release l) = 0.
Proof.
  induction l as [|c l IH]; cbn; [reflexivity|].
  intros H. apply andb_true_iff in H. destruct H as [Hc Hl].
  destruct c; try discriminate; cbn; auto.
Qed.

Lemma drainer_calls_ok w inv st :
  Inv w inv st -> forallb is_drain_call (calls_of Drainer (trace st)) = true.
Proof.
  intros HI. destruct (inv_pattern _ _ _ HI) as [answers [a [E _]]].
  rewrite E, forallb_app, iterations_drain_calls.
  destruct (drainer st); reflexivity.
Qed.

Lemma drainer_never_releases w inv st :
  Inv w inv st -> count Drainer is_release (trace st) = 0.
Proof.
  intros HI. unfold count. apply drain_calls_no_release.
  now apply (drainer_calls_ok w inv).
Qed.

(** * The lifecycle of a capture context *)

(** C1. Whatever the width, height and latency mode, and whether the block
    returns or raises, once control is back in the caller the handle has
    been released by the context (exactly one release, handle closed) and,
    in low latency mode, the drain thread has ended and has been joined;
    from then on no thread takes a step.  Moreover every run can be
    continued to that point. *)
Theorem cap_context_exit_released_and_joined w inv sched how :
  main (run w inv sched) = Exited how ->
  how = ending inv
  /\ count Coordinator is_release (trace (run w inv sched)) = 1
  /\ is_closed (cap (run w inv sched)) = true
  /\ (low_latency inv = true ->
      drainer (run w inv sched) = Finished
      /\ count Coordinator is_join (trace (run w inv sched)) = 1)
  /\ (forall more, run w inv (sched ++ more) = run w inv sched)
  /\ (forall t, step w inv t (run w inv sched) = None)
  /\ main (run w inv (sched ++ finish inv)) = Exited (ending inv).
Proof.
  intros E. pose proof (Inv_run w inv sched) as HI.
  assert (He : has_exited (main (run w inv sched)) = true)
    by (rewrite E; reflexivity).
  assert (Ht : in_teardown (main (run w inv sched)) = true)
    by (rewrite E; reflexivity).
  split; [now apply (inv_ending _ _ _ HI)|].
  split; [rewrite (inv_releases _ _ _ HI), Ht; reflexivity|].
  split; [now apply (inv_closed _ _ _ HI)|].
  split.
  { intros Hl. split; [now apply (inv_joined _ _ _ HI)|].
    rewrite (inv_joins _ _ _ HI), Hl, He. reflexivity. }
  split.
  { intros more. unfold run. rewrite run_from_app.
    now apply exited_run_from. }
  split; [intros t; now apply exited_is_final|].
  apply run_finish_exits.
Qed.

Lemma cap_context_exit_released_and_joined_witness :
  let inv := doctest true (Py.Raises "KeyboardInterrupt") in
  let sched := (interleaved ++ finish inv)%list in
  main (run jetson inv sched) = Exited (Py.Raises "KeyboardInterrupt")
  /\ count Coordinator is_release (trace (run jetson inv sched)) = 1
  /\ drainer (run jetson inv sched) = Finished.
Proof.
  intros inv sched.
  split; [reflexivity|].
  destruct (cap_context_exit_released_and_joined jetson inv sched
              (Py.Raises "KeyboardInterrupt") eq_refl)
    as [_ [Hr [_ [Hj _]]]].
  split; [exact Hr|]. exact (proj1 (Hj eq_refl)).
Defined.

(** C2. On every teardown with [low_latency] true the release of the
    handle comes strictly before the join: while the coordinator waits in
    [join] the release is already in the trace and the handle is closed,
    and every join in a trace has the coordinator's release before it. *)
Theorem release_before_join w inv sched :
  (main (run w inv sched) = AtJoin ->
   In (Coordinator, Release) (trace (run w inv sched))
   /\ ~ In (Coordinator, ThreadJoin) (trace (run w inv sched))
   /\ is_closed (cap (run w inv sched)) = true)
  /\ (forall pre post,
        trace (run w inv sched)
        = (pre ++ (Coordinator, ThreadJoin) :: post)%list ->
        In (Coordinator, Release) pre).
Proof.
  pose proof (Inv_run w inv sched) as HI. split.
  - intros E.
    assert (Ht : in_teardown (main (run w inv sched)) = true)
      by (rewrite E; reflexivity).
    split; [|split].
    + destruct (count_pos_In Coordinator is_release (trace (run w inv sched)))
        as [k [Hin Hk]].
      * rewrite (inv_releases _ _ _ HI), Ht. lia.
      * destruct k; try discriminate. assumption.
    + intros Hin. apply in_split in Hin. destruct Hin as [pre [post Hs]].
      pose proof (inv_joins _ _ _ HI) as Hj. rewrite E in Hj. cbn in Hj.
      rewrite andb_false_r in Hj. rewrite Hs in Hj.
      unfold count, calls_of in Hj.
      rewrite filter_app, map_app, filter_app, length_app in Hj.
      cbn in Hj. lia.
    + now apply (inv_closed _ _ _ HI).
  - apply (inv_order _ _ _ HI).
Qed.

Lemma release_before_join_witness :
  let inv := doctest true Py.Returns in
  let waiting := run jetson inv (repeat MainThread 6) in
  let done := run jetson inv (finish inv) in
  (main waiting = AtJoin /\ In (Coordinator, Release) (trace waiting))
  /\ (trace done
      = (removelast (trace done) ++ [(Coordinator, ThreadJoin)])%list
      /\ In (Coordinator, Release) (removelast (trace done))).
Proof.
  intros inv waiting done. split.
  - split; [reflexivity|].
    exact (proj1 (proj1 (release_before_join jetson inv
                           (repeat MainThread 6)) eq_refl)).
  - split; [reflexivity|].
    exact (proj2 (release_before_join jetson inv (finish inv))
             (removelast (trace done)) [] eq_refl).
Defined.

(** C3. [cap_context] starts a drain thread if and only if [low_latency]
    is true: the number of threads it has started is one from the spawn
    on when [low_latency] is true and zero otherwise, so exactly one at
    the end of a low latency scope; when [low_latency] is false the drain
    thread never exists and makes no call, and the coordinator itself
    never issues a grab. *)
Theorem drainer_spawned_iff_low_latency w inv sched :
  let st := run w inv sched in
  count Coordinator is_start (trace st)
    = (if low_latency inv && started_block (main st) then 1 else 0)
  /\ count Coordinator is_start (trace (run w inv (sched ++ finish inv)))
    = (if low_latency inv then 1 else 0)
  /\ (drainer st = NotStarted
      <-> low_latency inv && started_block (main st) = false)
  /\ count Coordinator is_grab (trace st) = 0
  /\ (if low_latency inv then True
      else drainer st = NotStarted /\ calls_of Drainer (trace st) = []
           /\ count Drainer is_grab (trace st) = 0).
Proof.
  intros st. pose proof (Inv_run w inv sched) as HI. fold st in HI.
  split; [apply (inv_starts _ _ _ HI)|].
  split.
  { rewrite (inv_starts _ _ _ (Inv_run w inv (sched ++ finish inv))).
    rewrite run_finish_exits. cbn. now rewrite andb_true_r. }
  split; [apply (inv_drainer _ _ _ HI)|].
  split; [apply (inv_no_grab _ _ _ HI)|].
  destruct (low_latency inv) eqn:Hl; [exact I|].
  pose proof (inv_drainer _ _ _ HI) as Hd. rewrite Hl in Hd.
  destruct Hd as [_ Hd]. specialize (Hd eq_refl).
  destruct (inv_pattern _ _ _ HI) as [answers [a [E [Hn _]]]].
  rewrite (Hn Hd), Hd in E. cbn in E.
  split; [assumption|]. split; [assumption|].
  unfold count. rewrite E. reflexivity.
Qed.

(** C4. The calls of the drain thread are a sequence of full iterations,
    each one open-status query answered "open", one grab (whatever its
    answer) and one zero sleep, followed by the part of the iteration in
    progress, or, once the thread has ended, by the single query answered
    "closed": nothing comes after that query.  The query answered on a
    closed handle ends the loop at once, the answer of a grab never
    changes where the loop goes, the loop is left by no other way, and
    once the handle is closed three steps of the thread are enough for it
    to end. *)
Theorem clear_buffer_loop_shape w inv sched :
  let st := run w inv sched in
  (exists answers a,
      calls_of Drainer (trace st)
      = (concat (map iteration answers)
         ++ partial_iteration (drainer st) a)%list)
  /\ (forall c hist,
        clear_buffer w AtWhile c hist
        = Some (if opened c then AtGrab else Finished,
                (Drainer, IsOpened (opened c))))
  /\ (forall w' c hist,
        option_map fst (clear_buffer w' AtGrab c hist) = Some AtSleep)
  /\ (forall c hist, clear_buffer w AtSleep c hist
                     = Some (AtWhile, (Drainer, Sleep0)))
  /\ (forall c hist, clear_buffer w Finished c hist = None)
  /\ (forall more,
        is_closed (cap st) = true -> drainer st <> NotStarted ->
        3 <= length (filter is_drain more) ->
        drainer (run w inv (sched ++ more)) = Finished).
Proof.
  intros st. pose proof (Inv_run w inv sched) as HI. fold st in HI.
  split.
  { destruct (inv_pattern _ _ _ HI) as [answers [a [E _]]].
    now exists answers, a. }
  split.
  { intros c hist. cbn. unfold isOpened. destruct (opened c); reflexivity. }
  split; [reflexivity|]. split; [reflexivity|]. split; [reflexivity|].
  intros more Hc Hs Hn. unfold run. rewrite run_from_app.
  apply closed_drainer_finishes; auto.
  pose proof (drain_rank_le_3 (drainer st)). fold (run w inv sched). fold st.
  lia.
Qed.

Lemma clear_buffer_loop_shape_witness :
  let inv := doctest true Py.Returns in
  let sched := (interleaved ++ repeat MainThread 4)%list in
  is_closed (cap (run jetson inv sched)) = true
  /\ drainer (run jetson inv sched) = AtGrab
  /\ drainer (run jetson inv
               (sched ++ [DrainThread; DrainThread; DrainThread]))
     = Finished.
Proof.
  intros inv sched.
  split; [reflexivity|]. split; [reflexivity|].
  refine (proj2 (proj2 (proj2 (proj2 (proj2
            (clear_buffer_loop_shape jetson inv sched)))))
            [DrainThread; DrainThread; DrainThread] eq_refl _ _).
  - discriminate.
  - cbn. lia.
Defined.

(** C8. In a scope of [cap_context] the release of the handle is issued
    once, by the coordinator, in its teardown: the coordinator has
    released zero times before the teardown and once from then on, so
    exactly once when the scope is left; the drain thread never releases,
    all its calls being open-status queries, grabs and zero sleeps.  When
    the block itself does not release, that one release is the only one
    the handle ever sees. *)
Theorem release_exactly_once_by_coordinator w inv sched :
  let st := run w inv sched in
  let final := run w inv (sched ++ finish inv) in
  count Coordinator is_release (trace st)
    = (if in_teardown (main st) then 1 else 0)
  /\ count Coordinator is_release (trace final) = 1
  /\ count Drainer is_release (trace st) = 0
  /\ forallb is_drain_call (calls_of Drainer (trace st)) = true
  /\ (caller_releases (body inv) = 0 ->
      count_all is_release (trace final) = 1).
Proof.
  intros st final. pose proof (Inv_run w inv sched) as HI. fold st in HI.
  pose proof (Inv_run w inv (sched ++ finish inv)) as HF. fold final in HF.
  assert (E1 : count Coordinator is_release (trace final) = 1).
  { rewrite (inv_releases _ _ _ HF). unfold final.
    rewrite run_finish_exits. reflexivity. }
  split; [apply (inv_releases _ _ _ HI)|].
  split; [exact E1|].
  split; [now apply (drainer_never_releases w inv)|].
  split; [now apply (drainer_calls_ok w inv)|].
  intros Hb. rewrite count_all_split, E1.
  rewrite (drainer_never_releases w inv final HF).
  pose proof (inv_caller_releases _ _ _ HF). lia.
Qed.

Lemma release_exactly_once_by_coordinator_witness :
  let inv := doctest true Py.Returns in
  caller_releases (body inv) = 0
  /\ count_all is_release
       (trace (run jetson inv (interleaved ++ finish inv))) = 1.
Proof.
  intros inv. split; [reflexivity|].
  exact (proj2 (proj2 (proj2 (proj2
           (release_exactly_once_by_coordinator jetson inv interleaved))))
           eq_refl).
Defined.

(** C10. When the pipeline fails to open and [low_latency] is true the
    context still starts the drain thread; that thread never grabs: its
    only call is one open-status query answered "closed", after which it
    has ended.  The teardown releases the handle and the join returns, so
    the scope is left with the block's own outcome. *)
Theorem failed_open_still_tears_down w inv sched :
  low_latency inv = true ->
  pipeline_opens w (pipeline w (width inv) (height inv) (low_latency inv))
    = false ->
  let st := run w inv sched in
  let final := run w inv (sched ++ finish inv) in
  calls_of Drainer (trace st) = partial_iteration (drainer st) false
  /\ drainer st <> AtGrab /\ drainer st <> AtSleep
  /\ count Drainer is_grab (trace st) = 0
  /\ main final = Exited (ending inv)
  /\ drainer final = Finished
  /\ calls_of Drainer (trace final) = [IsOpened false]
  /\ count Coordinator is_start (trace final) = 1
  /\ count Coordinator is_release (trace final) = 1
  /\ count Coordinator is_join (trace final) = 1.
Proof.
  intros Hl Ho st final.
  assert (shape : forall s, Inv w inv s ->
            calls_of Drainer (trace s) = partial_iteration (drainer s) false
            /\ drainer s <> AtGrab /\ drainer s <> AtSleep).
  { intros s HS. destruct (inv_pattern _ _ _ HS) as [answers [a [E [_ Hn]]]].
    destruct (Hn Ho) as [Ha [Hg Hs]]. subst answers. cbn in E.
    repeat split; try assumption.
    rewrite E. destruct (drainer s); try reflexivity; congruence. }
  pose proof (Inv_run w inv sched) as HI. fold st in HI.
  pose proof (Inv_run w inv (sched ++ finish inv)) as HF. fold final in HF.
  assert (Em : main final = Exited (ending inv)) by apply run_finish_exits.
  assert (Ed : drainer final = Finished)
    by (apply (inv_joined _ _ _ HF); [rewrite Em; reflexivity|assumption]).
  destruct (shape st HI) as [E1 [E2 E3]].
  destruct (shape final HF) as [F1 _]. rewrite Ed in F1.
  repeat split; try assumption.
  - unfold count. rewrite E1. destruct (drainer st); try reflexivity;
      congruence.
  - rewrite (inv_starts _ _ _ HF), Hl, Em. reflexivity.
  - rewrite (inv_releases _ _ _ HF), Em. reflexivity.
  - rewrite (inv_joins _ _ _ HF), Hl, Em. reflexivity.
Qed.

Lemma failed_open_still_tears_down_witness :
  let inv := doctest true Py.Returns in
  let final := run no_camera inv (interleaved ++ finish inv) in
  main final = Exited Py.Returns
  /\ calls_of Drainer (trace final) = [IsOpened false].
Proof.
  intros inv final.
  destruct (failed_open_still_tears_down no_camera inv interleaved
              eq_refl eq_refl) as [_ [_ [_ [_ [Hm [_ [Hc _]]]]]]].
  split; [exact Hm|exact Hc].
Defined.

(** * The pipeline description *)

(** ** Strings *)

Lemma string_app_assoc (a b c : string) : (a ++ b) ++ c = a ++ (b ++ c).
Proof. induction a as [|x a IH]; cbn; [reflexivity|now rewrite IH]. Qed.

Lemma has_char_app c (a b : string) :
  has_char c (a ++ b) = has_char c a || has_char c b.
Proof.
  induction a as [|x a IH]; cbn; [reflexivity|].
  rewrite IH. now rewrite orb_assoc.
Qed.

Lemma split_on_free sep s :
  has_char sep s = false -> split_on sep s = [s].
Proof.
  induction s as [|c s IH]; cbn; [reflexivity|].
  intros H. apply orb_false_iff in H. destruct H as [Hc Hs].
  rewrite Hc, (IH Hs). reflexivity.
Qed.

Lemma split_on_app sep (a b : string) :
  has_char sep a = false ->
  split_on sep (a ++ String sep b) = a :: split_on sep b.
Proof.
  induction a as [|c a IH]; cbn.
  - intros _. now rewrite Ascii.eqb_refl.
  - intros H. apply orb_false_iff in H. destruct H as [Hc Ha].
    rewrite Hc, (IH Ha). reflexivity.
Qed.

Lemma split_on_concat sep toks :
  toks <> [] ->
  forallb (fun t => negb (has_char sep t)) toks = true ->
  split_on sep (String.concat (String sep "") toks) = toks.
Proof.
  induction toks as [|t toks IH]; [congruence|]. intros _ H.
  cbn in H. apply andb_true_iff in H. destruct H as [Ht Hs].
  apply negb_true_iff in Ht.
  destruct toks as [|u toks].
  - cbn. now apply split_on_free.
  - change (String.concat (String sep "") (t :: u :: toks))
      with (t ++ String sep (String.concat (String sep "") (u :: toks))).
    rewrite split_on_app by assumption.
    rewrite IH; [reflexivity|discriminate|assumption].
Qed.

Lemma strip_comma_app s : strip_comma (s ++ ",") = s.
Proof.
  induction s as [|c s IH]; [reflexivity|].
  cbn [append]. destruct s as [|d s]; [reflexivity|].
  change (strip_comma (String c (String d s ++ ",")))
    with (String c (strip_comma (String d s ++ ","))).
  now rewrite IH.
Qed.

(** ** Decimal numerals *)

Lemma uint_free c d :
  has_char c "0123456789" = false ->
  has_char c (NilEmpty.string_of_uint d) = false.
Proof.
  intros H. cbn in H.
  repeat (apply orb_false_iff in H; destruct H as [? H]).
  induction d; cbn; rewrite ?IHd; auto using orb_false_r;
    apply orb_false_iff; split; auto.
Qed.

Lemma str_int_free c n :
  has_char c "-0123456789" = false -> has_char c (Py.str_int n) = false.
Proof.
  intros H. cbn [has_char] in H. apply orb_false_iff in H.
  destruct H as [Hm Hd].
  pose proof (uint_free c) as Hu.
  assert (Hz : has_char c "0" = false).
  { cbn in Hd. apply orb_false_iff in Hd. destruct Hd as [Hd _].
    cbn. now rewrite Hd. }
  unfold Py.str_int, NilZero.string_of_int, NilZero.string_of_uint.
  destruct (Z.to_int n) as [d|d]; destruct d; cbn [has_char];
    rewrite ?Hm; cbn [orb]; auto; apply (Hu _ Hd).
Qed.

Lemma str_cpu_count_free c n :
  has_char c "-0123456789" = false -> has_char c "None" = false ->
  has_char c (Py.str_cpu_count n) = false.
Proof. destruct n; cbn [Py.str_cpu_count]; auto using str_int_free. Qed.

Lemma strip_comma_free s : has_char "," s = false -> strip_comma s = s.
Proof.
  induction s as [|c s IH]; [reflexivity|].
  intros H. cbn in H. apply orb_false_iff in H. destruct H as [Hc Hs].
  destruct s as [|d s].
  - cbn. now rewrite Hc.
  - change (String c (strip_comma (String d s)) = String c (String d s)).
    f_equal. now apply IH.
Qed.

Lemma int_of_str_str_int n : Py.int_of_str (Py.str_int n) = Some n.
Proof.
  unfold Py.int_of_str, Py.str_int.
  rewrite NilZero.isi.
  - cbn. now rewrite DecimalZ.of_to.
  - destruct n; cbn; try discriminate.
    intros H. inversion H as [H']. now apply Unsigned.to_uint_nonnil in H'.
  - destruct n; cbn; try discriminate.
    intros H. inversion H as [H']. now apply Unsigned.to_uint_nonnil in H'.
Qed.

(** ** The description, word by word *)

Lemma pipeline_is_its_words w width height ll :
  pipeline w width height ll
  = String.concat " " (pipeline_words w width height ll).
Proof.
  unfold pipeline, pipeline_words.
  generalize (Py.str_int width) (Py.str_int height)
    (Py.str_cpu_count (cpu_count w)).
  intros W H N. destruct ll; cbn; rewrite ?string_app_assoc; reflexivity.
Qed.

Lemma split_pipeline w width height ll :
  split_on " " (pipeline w width height ll)
  = pipeline_words w width height ll.
Proof.
  rewrite pipeline_is_its_words. apply split_on_concat; [discriminate|].
  unfold pipeline_words.
  pose proof (str_int_free " " width eq_refl) as Hw.
  pose proof (str_int_free " " height eq_refl) as Hh.
  pose proof (str_cpu_count_free " " (cpu_count w) eq_refl eq_refl) as Hn.
  revert Hw Hh Hn.
  generalize (Py.str_int width) (Py.str_int height)
    (Py.str_cpu_count (cpu_count w)).
  intros W H N Hw Hh Hn.
  destruct ll; cbn; rewrite ?has_char_app, Hw, Hh, Hn; reflexivity.
Qed.

Lemma parse_pipeline w width height ll :
  parse_launch (pipeline w width height ll)
  = pipeline_stages w width height ll.
Proof.
  unfold parse_launch, words. rewrite split_pipeline.
  unfold pipeline_words, pipeline_stages.
  pose proof (strip_comma_free _
    (str_cpu_count_free "," (cpu_count w) eq_refl eq_refl)) as Hn.
  revert Hn.
  generalize (Py.str_int width) (Py.str_int height)
    (Py.str_cpu_count (cpu_count w)).
  intros W H N Hn.
  destruct ll; cbn; unfold property; cbn; rewrite !strip_comma_app, Hn;
    reflexivity.
Qed.

Lemma stage_prop_pipeline w width height ll i key :
  stage_prop (pipeline w width height ll) i key
  = match nth_error (pipeline_stages w width height ll) i with
    | Some st => lookup key (props st)
    | None => None
    end.
Proof. unfold stage_prop. now rewrite parse_pipeline. Qed.

Lemma stage_element_pipeline w width height ll i :
  stage_element (pipeline w width height ll) i
  = option_map element (nth_error (pipeline_stages w width height ll) i).
Proof. unfold stage_element. now rewrite parse_pipeline. Qed.

Lemma create_cap_returns w width height ll :
  create_cap w width height ll
  = Py.Ok {| description := pipeline w width height ll;
             opened := pipeline_opens w (pipeline w width height ll) |}.
Proof. reflexivity. Qed.

(** * [create_cap] *)

(** C5. For every width and height the description built by [create_cap]
    sets the parameters that depend on the mode: on the source element
    [tnr-mode] is ["0"] when [low_latency] is true and ["2"] otherwise,
    and on the converter [interpolation-method] is ["Nearest"] when
    [low_latency] is true and ["Nicest"] otherwise. *)
Theorem create_cap_mode_parameters w width height ll :
  exists cap,
    create_cap w width height ll = Py.Ok cap
    /\ stage_element (description cap) 0 = Some "nvarguscamerasrc"
    /\ stage_prop (description cap) 0 "tnr-mode"
       = Some (if ll then "0" else "2")
    /\ stage_element (description cap) 1 = Some "nvvidconv"
    /\ stage_prop (description cap) 1 "interpolation-method"
       = Some (if ll then "Nearest" else "Nicest").
Proof.
  eexists. split; [apply create_cap_returns|]. cbn [description].
  rewrite !stage_prop_pipeline, !stage_element_pipeline.
  destruct ll; repeat split; reflexivity.
Qed.

(** C6. For every width, height and mode the description built by
    [create_cap] has six stages and fixes the parameters that do not
    depend on the mode: [sensor-mode] 0 on the source, [output-buffers] 1
    on the converter, caps of the requested width and height (the numerals
    read back as the arguments), a [videoconvert] stage whose [n-threads]
    is the text of [os.cpu_count()], hence that count whenever the call
    gives one, and final caps of format BGR before the sink. *)
Theorem create_cap_fixed_parameters w width height ll :
  exists cap,
    create_cap w width height ll = Py.Ok cap
    /\ length (parse_launch (description cap)) = 6
    /\ stage_prop (description cap) 0 "sensor-mode" = Some "0"
    /\ stage_prop (description cap) 1 "output-buffers" = Some "1"
    /\ stage_element (description cap) 2 = Some "video/x-raw"
    /\ stage_prop (description cap) 2 "width" = Some (Py.str_int width)
    /\ stage_prop (description cap) 2 "height" = Some (Py.str_int height)
    /\ Py.int_of_str (Py.str_int width) = Some width
    /\ Py.int_of_str (Py.str_int height) = Some height
    /\ stage_element (description cap) 3 = Some "videoconvert"
    /\ stage_prop (description cap) 3 "n-threads"
       = Some (Py.str_cpu_count (cpu_count w))
    /\ match cpu_count w with
       | Some n => Py.int_of_str (Py.str_cpu_count (cpu_count w)) = Some n
       | None => Py.str_cpu_count (cpu_count w) = "None"
       end
    /\ stage_element (description cap) 4 = Some "video/x-raw"
    /\ stage_prop (description cap) 4 "format" = Some "(string)BGR"
    /\ stage_element (description cap) 5 = Some "appsink".
Proof.
  eexists. split; [apply create_cap_returns|]. cbn [description].
  rewrite !stage_prop_pipeline, !stage_element_pipeline, parse_pipeline.
  repeat split; try reflexivity; try apply int_of_str_str_int.
  destruct (cpu_count w); [apply int_of_str_str_int|reflexivity].
Qed.



(** ** The arguments of [create_cap] at the edge of their type *)

Lemma pipeline_as_text w width height ll :
  pipeline w width height ll
  = pipeline_text (Py.str_int width) (Py.str_int height)
      (Py.str_cpu_count (cpu_count w)) ll.
Proof. reflexivity. Qed.

Lemma text_is_its_words W H N ll :
  pipeline_text W H N ll = String.concat " " (text_words W H N ll).
Proof.
  unfold pipeline_text, text_words.
  destruct ll; cbn; rewrite ?string_app_assoc; reflexivity.
Qed.

Lemma parse_text W H N ll :
  has_char " " W = false -> has_char " " H = false ->
  has_char " " N = false -> has_char "," N = false ->
  parse_launch (pipeline_text W H N ll) = text_stages W H N ll.
Proof.
  intros Hw Hh Hn Hc.
  assert (E : split_on " " (pipeline_text W H N ll) = text_words W H N ll).
  { rewrite text_is_its_words. apply split_on_concat; [discriminate|].
    unfold text_words.
    destruct ll; cbn; rewrite ?has_char_app, Hw, Hh, Hn; reflexivity. }
  unfold parse_launch, words. rewrite E.
  unfold text_words, text_stages.
  destruct ll; cbn; unfold property; cbn;
    rewrite !strip_comma_app, (strip_comma_free N Hc); reflexivity.
Qed.

Lemma arg_text_free c a :
  has_char c "-0123456789" = false -> has_char c "True" = false ->
  has_char c "False" = false ->
  has_char c (CPython.arg_text a) = false.
Proof.
  intros Hd Ht Hf. destruct a as [n|[|]]; cbn [CPython.arg_text]; auto.
  now apply str_int_free.
Qed.

Lemma parse_formatted w width height ll :
  parse_launch
    (pipeline_text (CPython.arg_text width) (CPython.arg_text height)
       (Py.str_cpu_count (cpu_count w)) ll)
  = text_stages (CPython.arg_text width) (CPython.arg_text height)
      (Py.str_cpu_count (cpu_count w)) ll.
Proof.
  apply parse_text.
  - now apply arg_text_free.
  - now apply arg_text_free.
  - now apply str_cpu_count_free.
  - now apply str_cpu_count_free.
Qed.

Lemma create_cap_formats w width height ll :
  CPython.fits_arg width = true -> CPython.fits_arg height = true ->
  CPython.fits_cpu_count (cpu_count w) = true ->
  CPython.create_cap w width height ll
  = VideoCapture_new w
      (pipeline_text (CPython.arg_text width) (CPython.arg_text height)
         (Py.str_cpu_count (cpu_count w)) ll).
Proof.
  intros Hw Hh Hn. unfold CPython.create_cap.
  assert (F : forall a, CPython.fits_arg a = true ->
              CPython.format_arg a = Py.Ok (CPython.arg_text a)).
  { intros [n|b] Ha; cbn in *; [|reflexivity].
    unfold CPython.str_int. now rewrite Ha. }
  rewrite (F width Hw), (F height Hh).
  destruct (cpu_count w) as [k|]; cbn in *; [|reflexivity].
  unfold CPython.str_int. now rewrite Hn.
Qed.

(** Within the limit the two models of [create_cap] are one. *)
Lemma create_cap_models_agree w width height ll :
  CPython.fits width = true -> CPython.fits height = true ->
  CPython.fits_cpu_count (cpu_count w) = true ->
  CPython.create_cap w (CPython.Int width) (CPython.Int height) ll
  = create_cap w width height ll.
Proof.
  intros Hw Hh Hn.
  now rewrite (create_cap_formats w (CPython.Int width) (CPython.Int height)
                 ll Hw Hh Hn).
Qed.

(** C9, as stated, fails: a width of 4301 digits (10 ** 4300) makes the
    f-string raise [ValueError] before the constructor is called, so
    [create_cap] does not return a handle for every integer. *)
Lemma create_cap_raises_on_huge_width :
  CPython.create_cap jetson (CPython.Int (10 ^ 4300)) (CPython.Int 480) true
  = Py.Raise "ValueError"
  /\ ~ (forall w width height ll,
         exists cap,
           CPython.create_cap w (CPython.Int width) (CPython.Int height) ll
           = Py.Ok cap).
Proof.
  assert (E : CPython.create_cap jetson (CPython.Int (10 ^ 4300))
                (CPython.Int 480) true = Py.Raise "ValueError").
  { unfold CPython.create_cap, CPython.format_arg, CPython.str_int.
    assert (F : CPython.fits (10 ^ 4300) = false)
      by (vm_compute; reflexivity).
    now rewrite F. }
  split; [exact E|].
  intros H. destruct (H jetson (10 ^ 4300)%Z 480%Z true) as [cap Hc].
  rewrite E in Hc. discriminate.
Qed.

(** C9, amended.  [create_cap] checks nothing about its arguments: for
    every [width] and [height] that the f-string can format, that is every
    integer of at most 4300 digits, zero and negative ones included, and
    every [bool] (the reported CPU count being within the same limit), it
    returns a handle without raising; the handle is built from the
    formatted description, whose caps carry the two arguments as they were
    given (an integer reads back as itself, a [bool] is written [True] or
    [False]), and its open status is whatever the backend made of that
    description. *)
Theorem create_cap_no_validation_within_limit w width height ll :
  CPython.fits_arg width = true ->
  CPython.fits_arg height = true ->
  CPython.fits_cpu_count (cpu_count w) = true ->
  exists cap,
    CPython.create_cap w width height ll = Py.Ok cap
    /\ description cap
       = pipeline_text (CPython.arg_text width) (CPython.arg_text height)
           (Py.str_cpu_count (cpu_count w)) ll
    /\ stage_prop (description cap) 2 "width"
       = Some (CPython.arg_text width)
    /\ stage_prop (description cap) 2 "height"
       = Some (CPython.arg_text height)
    /\ match width with
       | CPython.Int n => Py.int_of_str (CPython.arg_text width) = Some n
       | CPython.Bool b =>
           CPython.arg_text width = if b then "True" else "False"
       end
    /\ match height with
       | CPython.Int n => Py.int_of_str (CPython.arg_text height) = Some n
       | CPython.Bool b =>
           CPython.arg_text height = if b then "True" else "False"
       end
    /\ isOpened cap = pipeline_opens w (description cap).
Proof.
  intros Hw Hh Hn. eexists.
  split; [now apply create_cap_formats|]. cbn [description].
  split; [reflexivity|].
  unfold stage_prop. rewrite parse_formatted. cbn.
  split; [reflexivity|]. split; [reflexivity|].
  split; [destruct width as [n|[|]]; cbn;
          auto using int_of_str_str_int|].
  split; [destruct height as [n|[|]]; cbn;
          auto using int_of_str_str_int|].
  reflexivity.
Qed.

Lemma create_cap_no_validation_within_limit_witness :
  exists cap,
    CPython.create_cap no_camera (CPython.Int 0) (CPython.Int (-480)) false
    = Py.Ok cap
    /\ stage_prop (description cap) 2 "width" = Some "0"
    /\ stage_prop (description cap) 2 "height" = Some "-480"
    /\ isOpened cap = false.
Proof.
  destruct (create_cap_no_validation_within_limit no_camera
              (CPython.Int 0) (CPython.Int (-480)) false
              eq_refl eq_refl eq_refl)
    as [cap [E [_ [Hw [Hh [_ [_ Ho]]]]]]].
  exists cap. split; [exact E|]. split; [exact Hw|]. split; [exact Hh|].
  rewrite Ho. reflexivity.
Defined.

(** A [bool] passed for the width is written as [True]. *)
Example create_cap_bool_width :
  CPython.create_cap jetson (CPython.Bool true) (CPython.Int 480) true
  = Py.Ok
      {| description :=
           "nvarguscamerasrc sensor-mode=0 tnr-mode=0 ! nvvidconv interpolation-method=Nearest output-buffers=1 ! video/x-raw, width=True, height=480, format=BGRx ! videoconvert n-threads=4 ! video/x-raw, format=(string)BGR ! appsink";
         opened := true |}.
Proof. reflexivity. Qed.

(** The description for a zero width and a negative height. *)
Example create_cap_zero_and_negative :
  create_cap no_camera 0 (-480) false
  = Py.Ok
      {| description :=
           "nvarguscamerasrc sensor-mode=0 tnr-mode=2 ! nvvidconv interpolation-method=Nicest output-buffers=1 ! video/x-raw, width=0, height=-480, format=BGRx ! videoconvert n-threads=4 ! video/x-raw, format=(string)BGR ! appsink";
         opened := false |}.
Proof. reflexivity. Qed.


(** * More about the three functions *)

(** ** Induction over the reachable states *)

Lemma reachable_ind w inv (P : State -> Prop) :
  P initial ->
  (forall st st', Inv w inv st -> P st -> Step w inv st st' -> P st') ->
  forall sched, P (run w inv sched).
Proof.
  intros H0 HS sched. unfold run.
  assert (G : forall st, Inv w inv st -> P st ->
            P (run_from w inv st sched)).
  { induction sched as [|t sched IH]; intros st HI HP; cbn; [assumption|].
    apply IH; [now apply Inv_tick|].
    unfold tick. destruct (step w inv t st) as [st'|] eqn:E; [|assumption].
    eapply HS; eauto using step_Step. }
  apply G; [apply Inv_initial|assumption].
Qed.

(** ** What [cap_context] calls, in order *)

(** X1. Under every interleaving the calls made by [cap_context] itself
    are, in this order: the construction of the handle, the start of the
    thread when [low_latency] is true, the release, and the join when
    [low_latency] is true; at each program point exactly the calls up to
    that point have been made. *)
Theorem cap_context_call_sequence w inv sched :
  calls_of Coordinator (trace (run w inv sched))
  = coordinator_calls w inv (main (run w inv sched)).
Proof.
  apply (reachable_ind w inv
           (fun st => calls_of Coordinator (trace st)
                      = coordinator_calls w inv (main st))).
  - reflexivity.
  - intros st st' HI HP HS. pose proof (inv_ll _ _ _ HI) as Hl.
    destruct HS; cbn in *; rewrite ?calls_of_snoc; cbn;
      rewrite ?caller_op_actor; cbn; rewrite ?app_nil_r, ?HP;
      try reflexivity.
    + unfold coordinator_calls. destruct (low_latency inv); reflexivity.
    + unfold coordinator_calls. rewrite (Hl eq_refl). reflexivity.
    + unfold coordinator_calls. destruct (low_latency inv); cbn;
        rewrite ?app_nil_r; reflexivity.
    + unfold coordinator_calls. rewrite (Hl eq_refl). cbn. reflexivity.
Qed.

(** ** The handle between its construction and its first release *)

Lemma released_snoc tr ev :
  released (tr ++ [ev]) = released tr || is_release (snd ev).
Proof.
  unfold released. rewrite existsb_app. cbn. now rewrite orb_false_r.
Qed.

Lemma after_release_snoc tr ev :
  after_release (tr ++ [ev])
  = if released tr then (after_release tr ++ [ev])%list else [].
Proof.
  induction tr as [|e tr IH]; cbn.
  - destruct (is_release (snd ev)); reflexivity.
  - destruct (is_release (snd e)); cbn; [reflexivity|exact IH].
Qed.

Lemma released_count tr :
  released tr = false <-> count_all is_release tr = 0.
Proof.
  induction tr as [|ev tr IH] using rev_ind; [split; reflexivity|].
  rewrite released_snoc, count_all_snoc, orb_false_iff.
  destruct (is_release (snd ev)); split; intros H.
  - destruct H; discriminate.
  - lia.
  - rewrite Nat.add_0_r. now apply IH.
  - split; [|reflexivity]. apply IH. lia.
Qed.

Lemma caller_op_released w op c tr :
  is_release (snd (snd (caller_op w op c tr))) = false ->
  fst (caller_op w op c tr) = c.
Proof. destruct op; cbn; congruence. Qed.

Lemma handle_status_until_release w inv sched :
  let st := run w inv sched in
  (released (trace st) = true -> is_closed (cap st) = true)
  /\ (main st <> AtCreate -> released (trace st) = false ->
      exists c, cap st = Some c
        /\ opened c
           = pipeline_opens w
               (pipeline w (width inv) (height inv) (low_latency inv))).
Proof.
  apply (reachable_ind w inv
    (fun st =>
       (released (trace st) = true -> is_closed (cap st) = true)
       /\ (main st <> AtCreate -> released (trace st) = false ->
           exists c, cap st = Some c
             /\ opened c
                = pipeline_opens w
                    (pipeline w (width inv) (height inv)
                       (low_latency inv))))).
  - split; [discriminate|]. intros H; now elim H.
  - intros st st' HI [HR HO] HS. pose proof (inv_cap _ _ _ HI) as Hcap.
    destruct HS; cbn in *; rewrite ?released_snoc; cbn;
      rewrite ?orb_false_r, ?orb_true_r.
    + destruct Hcap as [_ Ht]. subst tr. split; [discriminate|].
      intros _ _. eexists; split; reflexivity.
    + split; [assumption|]. intros _. apply HO. discriminate.
    + split.
      * intros H. apply orb_true_iff in H. destruct H as [H|H].
        -- specialize (HR H).
           destruct (opened (fst (caller_op w op c tr))) eqn:E;
             [|reflexivity].
           apply caller_op_closes in E. rewrite E in HR. discriminate.
        -- destruct op; try discriminate. reflexivity.
      * intros _ H. apply orb_false_iff in H. destruct H as [H1 H2].
        rewrite (caller_op_released _ _ _ _ H2). apply HO; [discriminate|].
        assumption.
    + split; [assumption|]. intros _. apply HO. discriminate.
    + split; [reflexivity|]. intros _ H. discriminate.
    + split; [assumption|]. intros _. apply HO. discriminate.
    + split; [assumption|]. intros Hm. apply HO.
      destruct m; try discriminate. destruct Hcap; discriminate.
    + split; [assumption|]. intros Hm. apply HO.
      destruct m; try discriminate. destruct Hcap; discriminate.
    + split; [assumption|]. intros Hm. apply HO.
      destruct m; try discriminate. destruct Hcap; discriminate.
    + split; [assumption|]. intros Hm. apply HO.
      destruct m; try discriminate. destruct Hcap; discriminate.
Qed.

Lemma no_release_before_teardown w inv sched :
  caller_releases (body inv) = 0 ->
  in_teardown (main (run w inv sched)) = false ->
  released (trace (run w inv sched)) = false.
Proof.
  intros Hb Ht. pose proof (Inv_run w inv sched) as HI.
  apply released_count. rewrite count_all_split.
  rewrite (inv_releases _ _ _ HI), Ht.
  rewrite (drainer_never_releases w inv _ HI).
  pose proof (inv_caller_releases _ _ _ HI). lia.
Qed.

Lemma run_snoc w inv sched t :
  run w inv (sched ++ [t]) = tick w inv (run w inv sched) t.
Proof. unfold run. now rewrite run_from_app. Qed.

Lemma reachable_rev_ind w inv (P : State -> Prop) :
  P initial ->
  (forall s st', P (run w inv s) -> Step w inv (run w inv s) st' -> P st') ->
  forall sched, P (run w inv sched).
Proof.
  intros H0 HS sched.
  induction sched as [|t sched IH] using rev_ind; [exact H0|].
  rewrite run_snoc. unfold tick.
  destruct (step w inv t (run w inv sched)) as [st'|] eqn:E; [|assumption].
  eapply HS; eauto using step_Step.
Qed.

(** X2. When the backend opens the pipeline and the block does not release
    the handle itself, the handle is open from its construction until the
    teardown, under every interleaving with the drain thread; in
    particular every open-status query made by the block is answered
    "open". *)
Theorem handle_open_throughout_block w inv sched :
  pipeline_opens w (pipeline w (width inv) (height inv) (low_latency inv))
    = true ->
  caller_releases (body inv) = 0 ->
  (main (run w inv sched) <> AtCreate ->
   in_teardown (main (run w inv sched)) = false ->
   exists c, cap (run w inv sched) = Some c /\ isOpened c = true)
  /\ count Caller is_closed_answer (trace (run w inv sched)) = 0.
Proof.
  intros Ho Hb.
  assert (open_at : forall s,
            main (run w inv s) <> AtCreate ->
            in_teardown (main (run w inv s)) = false ->
            exists c, cap (run w inv s) = Some c /\ isOpened c = true).
  { intros s Hm Ht.
    destruct (proj2 (handle_status_until_release w inv s) Hm)
      as [c [Ec Eo]]; [now apply no_release_before_teardown|].
    exists c. split; [assumption|]. unfold isOpened. congruence. }
  split; [apply open_at|].
  apply (reachable_rev_ind w inv
           (fun st => count Caller is_closed_answer (trace st) = 0));
    [reflexivity|].
  intros s st' HP HS. specialize (open_at s).
  remember (run w inv s) as st eqn:Est. clear Est.
  destruct HS; cbn in *; rewrite ?count_snoc; cbn; rewrite ?HP;
    try reflexivity.
  destruct open_at as [c' [Ec Eo]]; [discriminate|reflexivity|].
  inversion Ec; subst c'.
  rewrite caller_op_actor. cbn.
  destruct op; cbn; try reflexivity. now rewrite Eo.
Qed.

Lemma handle_open_throughout_block_witness :
  let inv := doctest true Py.Returns in
  let sched := (interleaved ++ [DrainThread; MainThread])%list in
  (exists c, cap (run jetson inv sched) = Some c /\ isOpened c = true)
  /\ calls_of Caller (trace (run jetson inv sched))
     = [Read true; IsOpened true].
Proof.
  intros inv sched. split; [|reflexivity].
  apply (proj1 (handle_open_throughout_block jetson inv sched
                  eq_refl eq_refl)).
  - discriminate.
  - reflexivity.
Defined.

(** ** The drain thread after the release *)

(** X3. Once the handle has been released (by the teardown or by the
    block) the drain thread starts no new iteration: after the first
    release none of its open-status queries is answered "open", it issues
    at most one more grab, the one that was about to run, and no grab
    delivers a frame any more. *)
Theorem at_most_one_grab_after_release w inv sched :
  let late := after_release (trace (run w inv sched)) in
  count Drainer is_grab late <= 1
  /\ count Drainer is_live_grab late = 0
  /\ count Drainer is_open_answer late = 0.
Proof.
  cbn zeta.
  enough (G :
       (count Drainer is_grab (after_release (trace (run w inv sched)))
          + (match drainer (run w inv sched) with AtGrab => 1 | _ => 0 end)
        <= 1
        \/ released (trace (run w inv sched)) = false)
       /\ count Drainer is_grab (after_release (trace (run w inv sched)))
          <= 1
       /\ count Drainer is_live_grab
            (after_release (trace (run w inv sched))) = 0
       /\ count Drainer is_open_answer
            (after_release (trace (run w inv sched))) = 0)
    by tauto.
  apply (reachable_rev_ind w inv
    (fun st =>
       (count Drainer is_grab (after_release (trace st))
          + (match drainer st with AtGrab => 1 | _ => 0 end) <= 1
        \/ released (trace st) = false)
       /\ count Drainer is_grab (after_release (trace st)) <= 1
       /\ count Drainer is_live_grab (after_release (trace st)) = 0
       /\ count Drainer is_open_answer (after_release (trace st)) = 0)).
  { cbn. repeat split; auto. }
  intros s st' [H1 [H2 [H3 H4]]] HS.
  pose proof (proj1 (handle_status_until_release w inv s)) as Hc.
  remember (run w inv s) as st eqn:Est. clear Est.
  destruct HS; cbn [trace drainer cap main] in *;
    rewrite ?after_release_snoc, ?released_snoc.
  all: destruct (released tr) eqn:Er; cbn [orb];
    [specialize (Hc eq_refl); cbn in Hc
    |try (repeat split; auto; lia)].
  all: rewrite ?count_snoc; cbn [fst snd actor_eqb andb];
    rewrite ?caller_op_actor; cbn [fst snd actor_eqb andb];
    rewrite ?H3, ?H4.
  all: try (destruct H1 as [H1|H1]; [|discriminate]).
  all: try (repeat split; auto; lia).
  all: change (count Drainer is_grab []) with 0;
    change (count Drainer is_live_grab []) with 0;
    change (count Drainer is_open_answer []) with 0.
  - repeat split; auto. left. destruct d; lia.
  - repeat split; auto. left. destruct d; lia.
  - rewrite H in Hc. discriminate.
  - cbn. repeat split; auto; lia.
  - unfold grab. destruct (opened c); [discriminate|].
    cbn. repeat split; auto; lia.
  - cbn. repeat split; auto; lia.
Qed.

(** ** The drain thread lives between its start and its join *)

Lemma In_count_pos a kind c tr :
  In (a, c) tr -> kind c = true -> 0 < count a kind tr.
Proof.
  induction tr as [|ev tr IH] using rev_ind; [intros []|].
  intros Hin Hk. rewrite count_snoc. apply in_app_or in Hin.
  destruct Hin as [Hin|[E|[]]].
  - specialize (IH Hin Hk). lia.
  - subst ev. cbn. rewrite Hk. destruct a; cbn; lia.
Qed.

Lemma joined_is_exited w inv st :
  Inv w inv st -> In (Coordinator, ThreadJoin) (trace st) ->
  has_exited (main st) = true.
Proof.
  intros HI Hin.
  pose proof (In_count_pos Coordinator is_join _ _ Hin eq_refl) as Hp.
  rewrite (inv_joins _ _ _ HI) in Hp.
  destruct (has_exited (main st)); [reflexivity|].
  rewrite andb_false_r in Hp. lia.
Qed.

Lemma join_is_last w inv sched pre post :
  trace (run w inv sched) = (pre ++ (Coordinator, ThreadJoin) :: post)%list ->
  post = [].
Proof.
  revert pre post.
  apply (reachable_rev_ind w inv
    (fun st => forall pre post,
       trace st = (pre ++ (Coordinator, ThreadJoin) :: post)%list ->
       post = [])).
  { intros [|? ?] ? H; discriminate. }
  intros s st' HP HS pre post E.
  pose proof (Inv_run w inv s) as HI.
  assert (stuck : In (Coordinator, ThreadJoin) (trace (run w inv s)) ->
                  False).
  { intros Hin. pose proof (joined_is_exited w inv _ HI Hin) as He.
    destruct (Step_step _ _ _ _ HS) as [t Ht].
    rewrite (exited_is_final w inv _ t HI He) in Ht. discriminate. }
  remember (run w inv s) as st eqn:Est. clear Est.
  destruct HS; cbn [trace] in *; try (eapply HP; eassumption).
  all: apply snoc_split in E; destruct E as [[E _]|[post' [_ E]]];
    try assumption.
  all: exfalso; apply stuck; rewrite E; apply in_or_app; right; now left.
Qed.

(** X4. The calls of the drain thread all lie between the start of the
    thread and its join: each of them comes after the coordinator's
    [ThreadStart] and none after the [ThreadJoin], which is the last event
    of any trace that contains it. *)
Theorem drain_calls_between_start_and_join w inv sched :
  (forall pre c post,
      trace (run w inv sched) = (pre ++ (Drainer, c) :: post)%list ->
      In (Coordinator, ThreadStart) pre
      /\ ~ In (Coordinator, ThreadJoin) pre)
  /\ (forall pre post,
        trace (run w inv sched)
        = (pre ++ (Coordinator, ThreadJoin) :: post)%list ->
        post = []).
Proof.
  split; [|apply join_is_last].
  intros pre c post E. split.
  - revert pre c post E.
    apply (reachable_rev_ind w inv
      (fun st => forall pre c post,
         trace st = (pre ++ (Drainer, c) :: post)%list ->
         In (Coordinator, ThreadStart) pre)).
    { intros [|? ?] ? ? H; discriminate. }
    intros s st' HP HS pre c post E.
    pose proof (Inv_run w inv s) as HI.
    assert (started : drainer (run w inv s) <> NotStarted ->
                      In (Coordinator, ThreadStart) (trace (run w inv s))).
    { intros Hd.
      destruct (count_pos_In Coordinator is_start (trace (run w inv s)))
        as [k [Hin Hk]].
      - rewrite (inv_starts _ _ _ HI).
        destruct (low_latency inv && started_block (main (run w inv s)))
          eqn:El; [lia|].
        elim Hd. now apply (inv_drainer _ _ _ HI).
      - destruct k; try discriminate. assumption. }
    remember (run w inv s) as st eqn:Est. clear Est.
    destruct HS; cbn [trace drainer] in *; try (eapply HP; eassumption).
    all: apply snoc_split in E;
      destruct E as [[_ [Ee Ep]]|[post' [_ E]]];
      try (eapply HP; eassumption); try discriminate.
    + exfalso. pose proof (caller_op_actor w op c0 tr) as Ha.
      rewrite Ee in Ha. discriminate.
    + subst pre. apply started. discriminate.
    + subst pre. apply started. discriminate.
    + subst pre. apply started. discriminate.
    + subst pre. apply started. discriminate.
  - intros Hin. apply in_split in Hin. destruct Hin as [p1 [p2 Ep]].
    subst pre. rewrite <- app_assoc in E. cbn in E.
    apply join_is_last in E. destruct p2; discriminate.
Qed.

Lemma drain_calls_between_start_and_join_witness :
  let inv := doctest true Py.Returns in
  let tr := trace (run jetson inv (interleaved ++ finish inv)) in
  In (Coordinator, ThreadStart) (firstn 2 tr)
  /\ ~ In (Coordinator, ThreadJoin) (firstn 2 tr).
Proof.
  intros inv tr.
  exact (proj1 (drain_calls_between_start_and_join jetson inv
                  (interleaved ++ finish inv))
           (firstn 2 tr) (IsOpened true) (skipn 3 tr) eq_refl).
Defined.

(** ** Leaving the scope under any schedule that lets both threads run *)

Lemma drain_tick_main w inv st :
  main (tick w inv st DrainThread) = main st.
Proof.
  unfold tick, step, drain_thread.
  destruct (cap st) as [c|]; [|reflexivity].
  destruct (clear_buffer w (drainer st) c (trace st)) as [[pc ev]|];
    reflexivity.
Qed.

Lemma teardown_tick w inv st t :
  in_teardown (main st) = true ->
  in_teardown (main (tick w inv st t)) = true.
Proof.
  intros Ht. destruct t; [|now rewrite drain_tick_main].
  destruct st as [c m d tr]; cbn in *.
  destruct m; try discriminate; unfold tick; cbn; [|reflexivity].
  destruct d; reflexivity.
Qed.

Lemma teardown_run_from w inv sched :
  forall st, in_teardown (main st) = true ->
  in_teardown (main (run_from w inv st sched)) = true.
Proof.
  induction sched as [|t sched IH]; intros st Ht; cbn; [assumption|].
  apply IH. now apply teardown_tick.
Qed.

Lemma main_reaches_teardown_any w inv sched :
  forall st, Inv w inv st ->
  main_rank inv (main st) <= length (filter is_main sched) ->
  in_teardown (main (run_from w inv st sched)) = true.
Proof.
  induction sched as [|t sched IH]; intros st HI Hr; cbn in *.
  - destruct (main st); cbn in *; try lia; reflexivity.
  - apply IH; [now apply Inv_tick|]. destruct t; cbn in *.
    + pose proof (main_tick_rank w inv st HI). lia.
    + now rewrite drain_tick_main.
Qed.

(** X5. The scope is left under every schedule that, from any point on,
    gives the main thread as many steps as the block and the context need,
    then the drain thread three steps, then the main thread one more, in
    whatever way the steps of the two threads are mixed: the join cannot
    block for ever, and the block's own outcome is the outcome of the
    scope. *)
Theorem exit_under_any_fair_schedule w inv sched a b :
  length (body inv) + 4 <= length (filter is_main a) ->
  3 <= length (filter is_drain b) ->
  main (run w inv (sched ++ a ++ b ++ [MainThread])) = Exited (ending inv).
Proof.
  intros Ha Hb. unfold run. rewrite !run_from_app.
  set (st0 := run_from w inv initial sched).
  assert (HI0 : Inv w inv st0) by apply Inv_run.
  set (st1 := run_from w inv st0 a).
  assert (HI1 : Inv w inv st1) by now apply Inv_run_from.
  assert (Ht1 : in_teardown (main st1) = true).
  { apply main_reaches_teardown_any; [assumption|].
    pose proof (main_rank_bound w inv st0 HI0). lia. }
  set (st2 := run_from w inv st1 b).
  assert (HI2 : Inv w inv st2) by now apply Inv_run_from.
  assert (Ht2 : in_teardown (main st2) = true)
    by now apply teardown_run_from.
  apply join_returns; [assumption|assumption|].
  intros Hl. apply closed_drainer_finishes.
  - assumption.
  - now apply (inv_closed _ _ _ HI1).
  - intros Hd. apply (inv_drainer _ _ _ HI1) in Hd. rewrite Hl in Hd.
    destruct (main st1); discriminate.
  - pose proof (drain_rank_le_3 (drainer st1)). lia.
Qed.

Lemma exit_under_any_fair_schedule_witness :
  let inv := doctest true (Py.Raises "ValueError") in
  main (run jetson inv
          ([DrainThread] ++ alternating 6 ++ alternating 3 ++ [MainThread]))
  = Exited (Py.Raises "ValueError").
Proof.
  intros inv.
  apply (exit_under_any_fair_schedule jetson inv [DrainThread]
           (alternating 6) (alternating 3)); cbn; lia.
Defined.

(** ** The drain loop on an open handle *)

Lemma finished_is_closed w inv sched :
  drainer (run w inv sched) = Finished ->
  is_closed (cap (run w inv sched)) = true.
Proof.
  apply (reachable_ind w inv
    (fun st => drainer st = Finished -> is_closed (cap st) = true)).
  { discriminate. }
  intros st st' HI HP HS. pose proof (inv_drainer _ _ _ HI) as Hd.
  destruct HS; cbn in *; try discriminate; try assumption.
  - rewrite andb_false_r in Hd. intros E. rewrite E in Hd.
    destruct Hd as [_ Hd]. discriminate (Hd eq_refl).
  - intros E. specialize (HP E).
    destruct (opened (fst (caller_op w op c tr))) eqn:Eo; [|reflexivity].
    apply caller_op_closes in Eo. rewrite Eo in HP. discriminate.
  - reflexivity.
  - intros _. now rewrite H.
Qed.

Lemma drain_cycle w inv st c :
  cap st = Some c -> opened c = true ->
  drainer st <> NotStarted -> drainer st <> Finished ->
  let st' := run_from w inv st [DrainThread; DrainThread; DrainThread] in
  cap st' = cap st /\ drainer st' = drainer st
  /\ count Drainer is_grab (trace st')
     = count Drainer is_grab (trace st) + 1.
Proof.
  intros Ec Eo Hn Hf. destruct st as [c0 m d tr]; cbn in *. subst c0.
  destruct c as [descr o]; cbn in Eo; subst o.
  destruct d; try congruence; cbn; rewrite !count_snoc; cbn;
    repeat split; lia.
Qed.

(** X6. The drain loop is left only on a closed handle.  While the handle
    is open the thread never ends by itself, however many steps it takes,
    and it keeps discarding: every three consecutive steps of the thread
    contain exactly one grab. *)
Theorem drain_loop_runs_while_open w inv sched :
  let st := run w inv sched in
  (drainer st = Finished -> is_closed (cap st) = true)
  /\ (is_closed (cap st) = false -> drainer st <> NotStarted ->
      forall k,
        let st' := run w inv (sched ++ repeat DrainThread (3 * k)) in
        drainer st' = drainer st
        /\ drainer st' <> Finished
        /\ count Drainer is_grab (trace st')
           = count Drainer is_grab (trace st) + k).
Proof.
  cbn zeta. split; [apply finished_is_closed|].
  intros Ho Hs k.
  assert (Hf : drainer (run w inv sched) <> Finished).
  { intros E. apply finished_is_closed in E. congruence. }
  destruct (cap (run w inv sched)) as [c|] eqn:Ec.
  2:{ pose proof (Inv_run w inv sched) as HI.
      pose proof (inv_cap _ _ _ HI) as Hc.
      pose proof (inv_drainer _ _ _ HI) as Hd.
      destruct (main (run w inv sched)); cbn in *;
        try (destruct Hc as [c [E _]]; congruence).
      rewrite andb_false_r in Hd. elim Hs. now apply Hd. }
  cbn in Ho. apply negb_false_iff in Ho.
  unfold run. rewrite run_from_app. fold (run w inv sched).
  revert Ec Hs Hf. generalize (run w inv sched) as st. intros st Ec Hs Hf.
  enough (G : cap (run_from w inv st (repeat DrainThread (3 * k))) = cap st
              /\ drainer (run_from w inv st (repeat DrainThread (3 * k)))
                 = drainer st
              /\ count Drainer is_grab
                   (trace (run_from w inv st (repeat DrainThread (3 * k))))
                 = count Drainer is_grab (trace st) + k).
  { destruct G as [_ [Gd Gc]]. rewrite Gd. auto. }
  induction k as [|k IH].
  - cbn. repeat split; lia.
  - rewrite Nat.mul_succ_r, repeat_app, run_from_app.
    destruct IH as [Ic [Id Ig]].
    set (mid := run_from w inv st (repeat DrainThread (3 * k))) in *.
    destruct (drain_cycle w inv mid c) as [Jc [Jd Jg]]; try congruence.
    cbn [repeat]. rewrite Jc, Jd, Jg. repeat split; try congruence. lia.
Qed.

Lemma drain_loop_runs_while_open_witness :
  let inv := doctest true Py.Returns in
  count Drainer is_grab
    (trace (run jetson inv (interleaved ++ repeat DrainThread 6)))
  = count Drainer is_grab (trace (run jetson inv interleaved)) + 2.
Proof.
  intros inv.
  refine (proj2 (proj2 (proj2 (drain_loop_runs_while_open jetson inv
                                 interleaved) eq_refl _ 2))).
  discriminate.
Defined.

(** ** The block runs between the set-up and the teardown *)

Lemma released_in_teardown w inv st :
  Inv w inv st -> In (Coordinator, Release) (trace st) ->
  in_teardown (main st) = true.
Proof.
  intros HI Hin.
  pose proof (In_count_pos Coordinator is_release _ _ Hin eq_refl) as Hp.
  rewrite (inv_releases _ _ _ HI) in Hp.
  destruct (in_teardown (main st)); [reflexivity|lia].
Qed.

Lemma block_calls_counted w inv sched :
  length (calls_of Caller (trace (run w inv sched)))
    + length (remaining inv (main (run w inv sched)))
  = length (body inv).
Proof.
  apply (reachable_ind w inv
    (fun st => length (calls_of Caller (trace st))
               + length (remaining inv (main st)) = length (body inv))).
  { reflexivity. }
  intros st st' HI HP HS.
  destruct HS; cbn in *; rewrite ?calls_of_snoc; cbn;
    rewrite ?caller_op_actor; cbn; rewrite ?app_nil_r, ?length_app; cbn;
    try assumption; try lia.
  all: destruct (low_latency inv); cbn in *; lia.
Qed.

(** X7. The operations of the block all run, once each, between the
    set-up and the teardown: when the scope is left the block has made as
    many calls as it has operations, no call of the block comes after the
    coordinator's release, and in low latency mode the drain thread has
    been started before the first of them. *)
Theorem block_runs_between_setup_and_teardown w inv sched :
  length (calls_of Caller (trace (run w inv (sched ++ finish inv))))
    = length (body inv)
  /\ (forall pre post,
        trace (run w inv sched)
        = (pre ++ (Coordinator, Release) :: post)%list ->
        calls_of Caller post = [])
  /\ (forall pre c post,
        trace (run w inv sched) = (pre ++ (Caller, c) :: post)%list ->
        low_latency inv = true ->
        In (Coordinator, ThreadStart) pre).
Proof.
  split; [|split].
  - pose proof (block_calls_counted w inv (sched ++ finish inv)) as H.
    rewrite run_finish_exits in H. cbn in H. lia.
  - apply (reachable_rev_ind w inv
      (fun st => forall pre post,
         trace st = (pre ++ (Coordinator, Release) :: post)%list ->
         calls_of Caller post = [])).
    { intros [|? ?] ? H; discriminate. }
    intros s st' HP HS pre post E.
    pose proof (released_in_teardown w inv _ (Inv_run w inv s)) as Ht.
    remember (run w inv s) as st eqn:Est. clear Est.
    destruct HS; cbn [trace main] in *; try (eapply HP; eassumption).
    all: apply snoc_split in E;
      destruct E as [[Ep _]|[post' [Ep E]]]; subst post;
      try reflexivity.
    all: rewrite calls_of_snoc, (HP _ _ E); cbn; try reflexivity.
    exfalso. assert (Hin : In (Coordinator, Release) tr)
      by (rewrite E; apply in_or_app; right; now left).
    specialize (Ht Hin). discriminate.
  - apply (reachable_rev_ind w inv
      (fun st => forall pre c post,
         trace st = (pre ++ (Caller, c) :: post)%list ->
         low_latency inv = true ->
         In (Coordinator, ThreadStart) pre)).
    { intros [|? ?] ? ? H; discriminate. }
    intros s st' HP HS pre c post E Hl.
    pose proof (inv_starts _ _ _ (Inv_run w inv s)) as Hs.
    remember (run w inv s) as st eqn:Est. clear Est.
    destruct HS; cbn [trace main] in *; try (eapply HP; eassumption).
    all: apply snoc_split in E;
      destruct E as [[_ [Ee Ep]]|[post' [_ E]]];
      try (eapply HP; eassumption); try discriminate.
    subst pre. rewrite Hl in Hs. cbn in Hs.
    destruct (count_pos_In Coordinator is_start tr) as [k [Hin Hk]];
      [lia|].
    destruct k; try discriminate. assumption.
Qed.

Lemma block_runs_between_setup_and_teardown_witness :
  let inv := doctest true Py.Returns in
  let tr := trace (run jetson inv (interleaved ++ finish inv)) in
  calls_of Caller (skipn 9 tr) = []
  /\ In (Coordinator, ThreadStart) (firstn 4 tr).
Proof.
  intros inv tr. split.
  - exact (proj1 (proj2 (block_runs_between_setup_and_teardown jetson inv
                           (interleaved ++ finish inv)))
             (firstn 8 tr) (skipn 9 tr) eq_refl).
  - exact (proj2 (proj2 (block_runs_between_setup_and_teardown jetson inv
                           (interleaved ++ finish inv)))
             (firstn 4 tr) (Read true) (skipn 5 tr) eq_refl eq_refl).
Defined.

(** ** The description tells the request *)

(** X8. The description built by [create_cap] determines the request: two
    calls that build the same description were given the same width, the
    same height and the same latency mode (and saw the same CPU count
    text), so distinct sizes or modes never share a pipeline. *)
Theorem pipeline_determines_request w w' a b ll a' b' ll' :
  pipeline w a b ll = pipeline w' a' b' ll' ->
  a = a' /\ b = b' /\ ll = ll'
  /\ Py.str_cpu_count (cpu_count w) = Py.str_cpu_count (cpu_count w').
Proof.
  intros E. apply (f_equal parse_launch) in E.
  rewrite !parse_pipeline in E. unfold pipeline_stages in E.
  injection E as Hl Hi Ha Hb Hn.
  apply (f_equal Py.int_of_str) in Ha, Hb.
  rewrite !int_of_str_str_int in Ha, Hb.
  repeat split; try congruence.
  destruct ll, ll'; try reflexivity; discriminate.
Qed.

Lemma pipeline_determines_request_witness :
  (640 = 640 /\ 480 = 480 /\ true = true
   /\ Py.str_cpu_count (cpu_count jetson)
      = Py.str_cpu_count (cpu_count no_camera))%Z.
Proof.
  exact (pipeline_determines_request jetson no_camera 640 480 true
           640 480 true eq_refl).
Defined.

(** ** Without the drain thread, and with a block that releases early *)

(** X9. With [low_latency] false the teardown waits for nothing: any
    schedule that gives the main thread as many steps as the block and the
    context need leaves the scope, whatever else is scheduled in between,
    and no thread was ever started or joined. *)
Theorem high_quality_exit_needs_no_thread w inv sched a :
  low_latency inv = false ->
  length (body inv) + 4 <= length (filter is_main a) ->
  main (run w inv (sched ++ a)) = Exited (ending inv)
  /\ count Coordinator is_start (trace (run w inv (sched ++ a))) = 0
  /\ count Coordinator is_join (trace (run w inv (sched ++ a))) = 0.
Proof.
  intros Hl Ha.
  pose proof (Inv_run w inv (sched ++ a)) as HI.
  assert (Ht : in_teardown (main (run w inv (sched ++ a))) = true).
  { unfold run. rewrite run_from_app.
    apply main_reaches_teardown_any; [apply Inv_run|].
    pose proof (main_rank_bound w inv _ (Inv_run w inv sched)).
    unfold run in *. lia. }
  pose proof (inv_ll _ _ _ HI) as Hn.
  pose proof (inv_ending _ _ _ HI) as He.
  rewrite (inv_starts _ _ _ HI), (inv_joins _ _ _ HI), Hl. cbn.
  destruct (main (run w inv (sched ++ a))); try discriminate.
  - specialize (Hn eq_refl). congruence.
  - rewrite (He how eq_refl). auto.
Qed.

Lemma high_quality_exit_needs_no_thread_witness :
  let inv := doctest false Py.Returns in
  main (run jetson inv ([DrainThread] ++ alternating 6)) = Exited Py.Returns.
Proof.
  intros inv.
  refine (proj1 (high_quality_exit_needs_no_thread jetson inv [DrainThread]
                   (alternating 6) eq_refl _)).
  cbn. lia.
Defined.

(** X10. The teardown releases the handle whether or not the block has
    done so: when the scope is left the handle has been released once more
    than the block released it, so a block that releases the handle itself
    makes the context release it a second time. *)
Theorem teardown_releases_regardless w inv sched :
  count_all is_release (trace (run w inv (sched ++ finish inv)))
  = caller_releases (body inv) + 1.
Proof.
  pose proof (Inv_run w inv (sched ++ finish inv)) as HI.
  rewrite count_all_split.
  rewrite (inv_releases _ _ _ HI), (drainer_never_releases w inv _ HI).
  pose proof (inv_caller_releases _ _ _ HI) as Hc.
  rewrite run_finish_exits in *. cbn in *.
  unfold caller_releases in Hc at 1. cbn in Hc. lia.
Qed.
